(** * jcvi.projects.tgbs: the [resolve] action and [HaplotypeResolver]

    A shallow embedding of [src/projects/tgbs.py] (Python 2), lines 21-39
    ([HaplotypeResolver]) and 55-150 ([resolve]).

    Conventions of the embedding.
    - Python [str] is [string], compared byte-wise ([String.compare]).
    - Python [int] is [Z].
    - Python [float] values are read as the rationals they denote ([Q]),
      and their arithmetic is exact.  With the default options (0.5 and
      0.5) and counts below 2^53 the product [0.5 * ngenotypes] is a
      double and a quotient of counts compares with 0.5 as its nearest
      double does, so the model takes the decisions of the code.  For
      other thresholds (0.3, say) double arithmetic can decide otherwise;
      what is proved about the thresholds is therefore stated with the
      default options, or holds of double arithmetic as well.
    - A [dict]/[Counter] is a [gmap string Z]; a [set] of strings is a
      [gset string].  The iteration order of a Python 2 dict is decided by
      hashing; it is a parameter [items] of the development, known only to
      enumerate each entry exactly once.
    - Exceptions are values of [exn]; code that can raise returns [result].
    - Writing to [fw] is modelled by threading the list of records written
      so far; what was written before an exception stays written. *)

From Stdlib Require Import ZArith QArith Qround Lia Lqa Ascii String.
From Stdlib Require OrderedTypeEx.
From stdpp Require Import base option list sorting gmap strings fin_maps.

Local Open Scope Z_scope.

(** ** Exceptions and results *)

Inductive exn : Type :=
  | NameError          (* a local name read before assignment *)
  | IndexError         (* sequence index out of range *)
  | TypeError          (* e.g. indexing a string with [None] *)
  | ValueError         (* unpacking, [int()] of a non-number, unknown contig *)
  | ZeroDivisionError.

Inductive result (A : Type) : Type :=
  | Ok (a : A)
  | Raise (e : exn).
Arguments Ok {A} a.
Arguments Raise {A} e.

#[global] Instance exn_eq_dec : EqDecision exn.
Proof. solve_decision. Defined.
#[global] Instance result_eq_dec `{EqDecision A} : EqDecision (result A).
Proof. solve_decision. Defined.

#[global] Instance result_ret : MRet result := λ A a, Ok a.
#[global] Instance result_bind : MBind result := λ A B k m,
  match m with
  | Ok a => k a
  | Raise e => Raise e
  end.

#[global] Instance result_fmap : FMap result := λ A B f m,
  match m with
  | Ok a => Ok (f a)
  | Raise e => Raise e
  end.

(** [for x in l: acc = body(acc, x)], stopping at the first exception. *)
Fixpoint rfold {A B} (body : B → A → result B) (acc : B) (l : list A) : result B :=
  match l with
  | [] => Ok acc
  | x :: l' => acc' ← body acc x; rfold body acc' l'
  end.

(** ** Records written to [fw] *)

(** [print >> fw, seqid, hr] and [print >> fw, a, b, abi].  The text of a
    record (fields joined by one space, [str] of the counter) is not
    modelled, only its fields. *)
Inductive record : Type :=
  | Summary (seqid : string) (counter : gmap string Z)
  | CoOccurrence (a b : string) (abi : Z).

(** A computation that writes to [fw]: from the records written so far to
    the records written afterwards and the outcome. *)
Definition IO (A : Type) : Type := list record → list record * result A.

#[global] Instance IO_ret : MRet IO := λ A a fw, (fw, Ok a).
#[global] Instance IO_bind : MBind IO := λ A B k m fw,
  match m fw with
  | (fw', Ok a) => k a fw'
  | (fw', Raise e) => (fw', Raise e)
  end.

Definition raise {A} (e : exn) : IO A := λ fw, (fw, Raise e).
Definition print (r : record) : IO unit := λ fw, (fw ++ [r], Ok tt).
Definition lift {A} (m : result A) : IO A := λ fw, (fw, m).

(** [for x in l: body(x)] *)
Fixpoint for_each {A} (l : list A) (body : A → IO unit) : IO unit :=
  match l with
  | [] => mret tt
  | x :: l' => body x ≫= λ _, for_each l' body
  end.

(** ** Counter *)

(** Modelled from the spec: [jcvi.utils.counter.Counter] is not under
    [src/]; it is the usual [Counter], a dict from elements to counts
    ("a mapping from HaplotypeString to the number of samples", "incrementing
    the population count ... by exactly one").  [c.get(k, d)],
    [Counter(iterable)] and [c.update(other)] are all the code uses. *)
Definition get (c : gmap string Z) (k : string) (d : Z) : Z :=
  default d (c !! k).

(** [Counter(iterable)]: [for elem in iterable: self[elem] = self.get(elem, 0) + 1] *)
Definition Counter (iterable : list string) : gmap string Z :=
  foldl (λ self elem, <[elem := get self elem 0 + 1]> self) ∅ iterable.

(** [self.update(other)]:
    [for elem, count in other.items(): self[elem] = self.get(elem, 0) + count] *)
Definition update (self other : gmap string Z) : gmap string Z :=
  map_fold (λ elem count self, <[elem := get self elem 0 + count]> self) self other.

(** [sum(...)] of a list of integers *)
Definition sum (l : list Z) : Z := foldl Z.add 0 l.

(** [itertools.combinations(iterable, r)] *)
Fixpoint combinations {A} (iterable : list A) (r : nat) : list (list A) :=
  match r, iterable with
  | O, _ => [[]]
  | S _, [] => []
  | S r', x :: rest => (cons x <$> combinations rest r') ++ combinations rest r
  end.

(** ** HaplotypeResolver (tgbs.py 21-39) *)

Record HaplotypeResolver : Type := {
  haplotype_set : list (gset string);
  nind : Z;
  counter : gmap string Z
}.

(** [__init__]: fold every sample's set into the population counter. *)
Definition HaplotypeResolver_init (haplotype_set : list (gset string)) : HaplotypeResolver :=
  {| haplotype_set := haplotype_set;
     nind := Z.of_nat (length haplotype_set);
     counter := foldl (λ counter haplotypes, update counter (Counter (elements haplotypes)))
                      ∅ haplotype_set |}.

(** [sum(1 for haplotypes in self.haplotype_set if a in haplotypes and b in haplotypes)] *)
Definition cooccurrence (self : HaplotypeResolver) (a b : string) : Z :=
  sum ((λ _, 1) <$> filter (λ haplotypes : gset string, a ∈ haplotypes ∧ b ∈ haplotypes)
                           (haplotype_set self)).

(** ** Strings and numbers of the matrix file *)

(** [s[i]] on a [str]: [None] is not an index, negative indices count from
    the end, anything out of range raises. *)
Definition getitem (s : string) (i : option Z) : result ascii :=
  match i with
  | None => Raise TypeError
  | Some i =>
      let n := Z.of_nat (String.length s) in
      let j := if i <? 0 then i + n else i in
      if (0 <=? j) && (j <? n)
      then match String.get (Z.to_nat j) s with
           | Some ch => Ok ch
           | None => Raise IndexError
           end
      else Raise IndexError
  end.

(** Whitespace of [str.split()]: space, and \t \n \v \f \r. *)
Definition isspace (ch : ascii) : bool :=
  let n := N_of_ascii ch in
  ((n =? 32) || ((9 <=? n) && (n <=? 13)))%N.

Fixpoint split_from (word : string) (s : string) : list string :=
  match s with
  | EmptyString => if decide (word = EmptyString) then [] else [word]
  | String ch s' =>
      if isspace ch
      then if decide (word = EmptyString) then split_from EmptyString s'
           else word :: split_from EmptyString s'
      else split_from (word +:+ String ch EmptyString) s'
  end.

(** [s.split()]: the maximal runs of non-whitespace characters. *)
Definition split (s : string) : list string := split_from EmptyString s.

Definition digit (ch : ascii) : option Z :=
  let n := Z.of_N (N_of_ascii ch) in
  if (48 <=? n) && (n <=? 57) then Some (n - 48) else None.

Fixpoint digits (acc : Z) (s : string) : option Z :=
  match s with
  | EmptyString => Some acc
  | String ch s' => d ← digit ch; digits (10 * acc + d) s'
  end.

(** [int(s)] on a [str] without surrounding blanks: an optional sign and
    one or more decimal digits, [ValueError] otherwise. *)
Definition int (s : string) : result Z :=
  let unsigned (s : string) : option Z :=
    match s with
    | EmptyString => None
    | String _ _ => digits 0 s
    end in
  let r := match s with
           | String "-"%char s' => Z.opp <$> unsigned s'
           | String "+"%char s' => unsigned s'
           | _ => unsigned s
           end in
  match r with
  | Some n => Ok n
  | None => Raise ValueError
  end.

(** [int(round(x))], Python 2: halves are rounded away from zero.  [x] is
    the exact product, where the code has its nearest double: the same
    number when the fraction is 0.5. *)
Definition round (x : Q) : Z :=
  if Qle_bool 0 x then Qfloor (x + (1 # 2))%Q else Qceiling (x - (1 # 2))%Q.

(** [a * 1. / b] with [a], [b] integers: the exact quotient, where the
    code has its nearest double; the two compare with 0.5 alike. *)
Definition truediv (a b : Z) : result Q :=
  if decide (b = 0) then Raise ZeroDivisionError
  else Ok (inject_Z a / inject_Z b)%Q.

(** ** Markers: the tuples of [data] (tgbs.py 96-112) *)

(** [opts.missing] and [opts.het]: floats, read as rationals.  The default
    [.5] is the rational 1/2. *)
Record options : Type := { missing : Q; het : Q }.

(** [(seqid, pos, ref, alt, c, hetratio)] *)
Record marker : Type := {
  seqid : string;
  pos : Z;
  ref : string;
  alt : string;
  c : gmap string Z;
  hetratio : Q
}.

(** One pass of the loop at lines 97-112 on [row]: [None] when the row is
    skipped by a [continue], the tuple appended to [data] otherwise. *)
Definition select (opts : options) (ngenotypes nmissing : Z) (row : string)
  : result (option marker) :=
  row0 ← getitem row (Some 0);
  if decide (row0 = "#"%char) then Ok None else
  let atoms := split row in
  match take 4 atoms with
  | [seqid; pos; ref; alt] =>
      let genotypes := drop 4 atoms in
      let c := Counter genotypes in
      let c0 := get c "0" 0 in
      let c3 := get c "3" 0 in
      if decide (c0 >= nmissing) then Ok None else
      hetratio ← truediv c3 (ngenotypes - c0);
      if Qle_bool hetratio (het opts) then Ok None else
      pos ← int pos;
      Ok (Some {| seqid := seqid; pos := pos; ref := ref; alt := alt;
                  c := c; hetratio := hetratio |})
  | _ => Raise ValueError
  end.

(** The first loop (lines 83-85): [row] is the first line that does not
    start with [#], or the last line read when there is none; [None] when
    no line was read at all. *)
Fixpoint scan_header (row : option string) (fp : list string)
  : result (option string * list string) :=
  match fp with
  | [] => Ok (row, [])
  | r :: fp' =>
      r0 ← getitem r (Some 0);
      if decide (r0 ≠ "#"%char) then Ok (Some r, fp') else scan_header (Some r) fp'
  end.

(** ** [data.sort()] and [groupby] *)

Definition lex (x y : comparison) : comparison :=
  match x with
  | Eq => y
  | _ => x
  end.

(** Python 2 compares two dicts by size, then by the smallest key on which
    they differ, then by the values at those keys. *)
Definition characterize (a b : gmap string Z) : option (string * Z) :=
  map_fold (λ k v acc,
              if decide (b !! k = Some v) then acc
              else match acc with
                   | Some (k', _) => if String.ltb k k' then Some (k, v) else acc
                   | None => Some (k, v)
                   end) None a.

Definition dict_compare (a b : gmap string Z) : comparison :=
  match Nat.compare (size a) (size b) with
  | Eq => match characterize a b, characterize b a with
          | Some (adiff, aval), Some (bdiff, bval) =>
              lex (String.compare adiff bdiff) (Z.compare aval bval)
          | _, _ => Eq
          end
  | r => r
  end.

(** Tuples compare component by component, left to right. *)
Definition marker_compare (x y : marker) : comparison :=
  lex (String.compare (seqid x) (seqid y))
 (lex (Z.compare (pos x) (pos y))
 (lex (String.compare (ref x) (ref y))
 (lex (String.compare (alt x) (alt y))
 (lex (dict_compare (c x) (c y))
      (Qcompare (hetratio x) (hetratio y)))))).

Definition marker_lt (x y : marker) : bool :=
  match marker_compare x y with
  | Lt => true
  | _ => false
  end.

(** [list.sort()] is stable; so is this insertion sort, which uses [<]
    only, as [list.sort()] does. *)
Fixpoint insert (x : marker) (l : list marker) : list marker :=
  match l with
  | [] => [x]
  | y :: l' => if marker_lt y x then y :: insert x l' else x :: l
  end.

Definition sort (data : list marker) : list marker := foldr insert [] data.

(** [groupby(data, lambda x: x[0])]: the maximal runs of equal [seqid]. *)
Fixpoint groupby (data : list marker) : list (string * list marker) :=
  match data with
  | [] => []
  | x :: data' =>
      match groupby data' with
      | (k, d) :: groups =>
          if decide (seqid x = k) then (k, x :: d) :: groups
          else (seqid x, [x]) :: (k, d) :: groups
      | [] => [(seqid x, [x])]
      end
  end.

(** ** The alignment files (pysam), as far as [resolve] uses them *)

Record AlignedSegment : Type := {
  query_name : string;
  query_sequence : string
}.

(** [query_position] is [None] where the read has a deletion or a skip. *)
Record PileupRead : Type := {
  alignment : AlignedSegment;
  query_position : option Z
}.

Record PileupColumn : Type := {
  reference_pos : Z;
  pileups : list PileupRead
}.

(** [samfile.pileup(contig)] gives the columns of the contig, or raises
    when the file cannot resolve the contig. *)
Record AlignmentFile : Type := {
  pileup : string → result (list PileupColumn)
}.

(** ** Per-sample extraction (tgbs.py 126-146) *)

(** [reads[rname].append(x)] on a [defaultdict(list)] *)
Definition append_to (reads : gmap string (list (Z * ascii))) (rname : string)
    (x : Z * ascii) : gmap string (list (Z * ascii)) :=
  <[rname := default [] (reads !! rname) ++ [x]]> reads.

(** Lines 132-135: the reads of one pileup column. *)
Definition scan_column (pos : Z) (reads : gmap string (list (Z * ascii)))
    (col : PileupColumn) : result (gmap string (list (Z * ascii))) :=
  rfold (λ reads r,
           let rname := query_name (alignment r) in
           rbase ← getitem (query_sequence (alignment r)) (query_position r);
           Ok (append_to reads rname (pos, rbase)))
        reads (pileups col).

(** Lines 129-135: the pileup of the contig is walked and the columns at
    the marker's position are read. *)
Definition scan_pileup (pos : Z) (reads : gmap string (list (Z * ascii)))
    (columns : list PileupColumn) : result (gmap string (list (Z * ascii))) :=
  rfold (λ reads col,
           if decide (reference_pos col ≠ pos - 1) then Ok reads
           else scan_column pos reads col)
        reads columns.

(** Lines 128-136 for one marker [m] of the region. *)
Definition collect_marker (samfile : AlignmentFile) (seqid : string)
    (st : gmap string (list (Z * ascii)) * list Z) (m : marker)
  : result (gmap string (list (Z * ascii)) * list Z) :=
  let '(reads, positions) := st in
  columns ← pileup samfile seqid;
  reads ← scan_pileup (pos m) reads columns;
  Ok (reads, positions ++ [pos m]).

(** Lines 126-136: [reads] and [positions] after the loop over [d]. *)
Definition collect (samfile : AlignmentFile) (seqid : string) (d : list marker)
  : result (gmap string (list (Z * ascii)) * list Z) :=
  rfold (collect_marker samfile seqid) (∅, []) d.

(** [l.index(x)]: the first index of [x], [ValueError] when absent. *)
Fixpoint index (l : list Z) (x : Z) : result nat :=
  match l with
  | [] => Raise ValueError
  | y :: l' => if decide (y = x) then Ok O else S <$> index l' x
  end.

(** [l[i] = x] *)
Definition setitem {A} (l : list A) (i : nat) (x : A) : result (list A) :=
  if decide (i < length l)%nat then Ok (<[i := x]> l) else Raise IndexError.

(** ["-" in hap] for the one-character string ["-"] *)
Fixpoint contains (ch : ascii) (s : string) : bool :=
  match s with
  | EmptyString => false
  | String ch' s' => if decide (ch' = ch) then true else contains ch s'
  end.

(** Lines 140-141: the observations of one read are written into [hap]. *)
Definition fill (positions : list Z) (hap : list ascii) (read : list (Z * ascii))
  : result (list ascii) :=
  rfold (λ hap '(p, rbase), i ← index positions p; setitem hap i rbase) hap read.

(** Lines 139-145 for one [read]: [None] when the read is skipped by the
    [continue], the string appended to [haplotypes] otherwise. *)
Definition haplotype (nmarkers : nat) (positions : list Z) (read : list (Z * ascii))
  : result (option string) :=
  hap ← fill positions (replicate nmarkers "-"%char) read;
  let hap := string_of_list_ascii hap in
  if contains "-" hap then Ok None else Ok (Some hap).

(** Lines 137-146.  The reads are taken in the order of [map_to_list]; the
    result is a set, which does not keep the order. *)
Definition haplotypes_of (nmarkers : nat) (positions : list Z)
    (reads : gmap string (list (Z * ascii))) : result (gset string) :=
  haplotypes ← rfold (λ haplotypes read,
                        hap ← haplotype nmarkers positions read;
                        Ok (match hap with
                            | Some hap => haplotypes ++ [hap]
                            | None => haplotypes
                            end))
                     [] (snd <$> map_to_list reads);
  Ok (list_to_set haplotypes).

(** One pass of the loop over [samfiles] (lines 126-146). *)
Definition extract (samfile : AlignmentFile) (seqid : string) (d : list marker)
  : result (gset string) :=
  '(reads, positions) ← collect samfile seqid d;
  haplotypes_of (length d) positions reads.

Section DictOrder.

(** [d.items()]: the entries of a dict in its iteration order. *)
Variable items : gmap string Z → list (string * Z).

(** [solve]: one record per 2-combination of the counter's items. *)
Definition solve (self : HaplotypeResolver) : IO unit :=
  for_each (combinations (items (counter self)) 2)
    (λ comb, match comb with
             | [(a, ai); (b, bi)] => print (CoOccurrence a b (cooccurrence self a b))
             | _ => raise ValueError
             end).

(** One pass of the loop over the contigs (lines 121-150). *)
Definition resolve_contig (samfiles : list AlignmentFile) (seqid : string)
    (d : list marker) : IO unit :=
  haplotype_set ← lift (rfold (λ haplotype_set samfile,
                                 haplotypes ← extract samfile seqid d;
                                 Ok (haplotype_set ++ [haplotypes]))
                              [] samfiles);
  let hr := HaplotypeResolver_init haplotype_set in
  print (Summary seqid (counter hr));;
  solve hr.

(** Lines 96-112: the rows that survive the filter, in file order. *)
Definition load (opts : options) (ngenotypes nmissing : Z) (fp : list string)
  : result (list marker) :=
  rfold (λ data row,
           m ← select opts ngenotypes nmissing row;
           Ok (match m with
               | Some m => data ++ [m]
               | None => data
               end))
        [] fp.

(** [resolve], from the option values, the lines of the matrix file and
    the opened alignment files. *)
Definition resolve (opts : options) (fp : list string)
    (samfiles : list AlignmentFile) : IO unit :=
  '(row, fp) ← lift (scan_header None fp);
  row ← lift (match row with
              | Some row => Ok row
              | None => Raise NameError
              end);
  let header := split row in
  let ngenotypes := Z.of_nat (length header) - 4 in
  let nmissing := round (missing opts * inject_Z ngenotypes) in
  data ← lift (load opts ngenotypes nmissing fp);
  let data := sort data in
  for_each (groupby data) (λ '(seqid, d), resolve_contig samfiles seqid d).

End DictOrder.

(** ** Vocabulary of the statements *)

(** How many entries of [l] equal [k]. *)
Definition occurrences (k : string) (l : list string) : Z :=
  Z.of_nat (length (filter (λ x, x = k) l)).

(** How many samples have [a] in their haplotype set. *)
Definition samples_with (a : string) (haplotype_set : list (gset string)) : Z :=
  Z.of_nat (length (filter (λ haplotypes : gset string, a ∈ haplotypes) haplotype_set)).

(** How many samples have both [a] and [b] in their haplotype set. *)
Definition samples_with_both (a b : string) (haplotype_set : list (gset string)) : Z :=
  Z.of_nat (length (filter (λ haplotypes : gset string, a ∈ haplotypes ∧ b ∈ haplotypes)
                           haplotype_set)).

(** [r] is a co-occurrence record of the unordered pair {a, b}. *)
Definition record_of_pair (a b : string) (r : record) : bool :=
  match r with
  | CoOccurrence x y _ =>
      bool_decide (x = a ∧ y = b) || bool_decide (x = b ∧ y = a)
  | Summary _ _ => false
  end.

(** The pairs [(l[i], l[j])], [i < j], in the order of [combinations]. *)
Fixpoint pairs {A} (l : list A) : list (A * A) :=
  match l with
  | [] => []
  | x :: rest => (pair x <$> rest) ++ pairs rest
  end.

(** Some observation of [read] is written into slot [i] of the array. *)
Definition slot_written (positions : list Z) (read : list (Z * ascii)) (i : nat) : Prop :=
  Exists (λ x, index positions x.1 = Ok i) read.

(** [read] has an observation at position [p]. *)
Definition observed (read : list (Z * ascii)) (p : Z) : Prop :=
  Exists (λ x, x.1 = p) read.

#[global] Instance slot_written_dec positions read i :
  Decision (slot_written positions read i).
Proof. unfold slot_written. apply _. Defined.

#[global] Instance observed_dec read p : Decision (observed read p).
Proof. unfold observed. apply _. Defined.

(** Every observation kept in [reads] is at a position satisfying [P]. *)
Definition positions_in (P : Z → Prop) (reads : gmap string (list (Z * ascii))) : Prop :=
  ∀ r obs, reads !! r = Some obs → Forall (λ x, P x.1) obs.

(** The order of [data.sort()] as far as contig and position go. *)
Definition key_le (x y : marker) : Prop :=
  String.compare (seqid x) (seqid y) = Lt
  ∨ (seqid x = seqid y ∧ pos x ≤ pos y).

(** [row] starts with the comment marker. *)
Definition is_comment (row : string) : Prop := getitem row (Some 0) = Ok "#"%char.


(** The two tests on the genotype codes of [row]: fewer than
    [round(missing * ngenotypes)] codes ['0'], and more than [het] for the
    number of codes ['3'] over [ngenotypes] minus the number of codes ['0']. *)
Definition passes_filter (opts : options) (ngenotypes : Z) (row : string) : Prop :=
  let genotypes := drop 4 (split row) in
  let c0 := occurrences "0" genotypes in
  let c3 := occurrences "3" genotypes in
  c0 < round (missing opts * inject_Z ngenotypes)
  ∧ ngenotypes - c0 ≠ 0
  ∧ (het opts < inject_Z c3 / inject_Z (ngenotypes - c0))%Q.


#[global] Instance is_comment_dec row : Decision (is_comment row).
Proof. unfold is_comment. apply _. Defined.

#[global] Instance Qlt_dec (x y : Q) : Decision (x < y)%Q.
Proof. unfold Qlt. apply _. Defined.

#[global] Instance passes_filter_dec opts ngenotypes row :
  Decision (passes_filter opts ngenotypes row).
Proof. unfold passes_filter. apply _. Defined.

(** ** Inputs of the examples *)

Definition default_options : options := {| missing := 1 # 2; het := 1 # 2 |}.

Definition pileup_read (name sequence : string) (qpos : Z) : PileupRead :=
  {| alignment := {| query_name := name; query_sequence := sequence |};
     query_position := Some qpos |}.

(** A sample with reads [r1] (covering 100 and 200) and [r2] (covering 100
    only) on any contig. *)
Definition sample_two_reads : AlignmentFile :=
  {| pileup := λ _,
       Ok [ {| reference_pos := 99;
               pileups := [pileup_read "r1" "ACGT" 0; pileup_read "r2" "ACGT" 1] |};
            {| reference_pos := 199;
               pileups := [pileup_read "r1" "ACGT" 3] |} ] |}.

(** A sample whose alignment file knows no contig. *)
Definition sample_unknown_contig : AlignmentFile :=
  {| pileup := λ _, Raise ValueError |}.

(** Four individuals, markers on [ctg1] at 100 and 200. *)
Definition matrix_two_markers : list string :=
  [ "# comment";
    "seqid pos ref alt s1 s2 s3 s4";
    "ctg1 200 A G 3 3 3 1";
    "ctg1 100 A G 3 3 0 1" ].

(** Four individuals, two rows for [ctg1] at 100. *)
Definition matrix_repeated_position : list string :=
  [ "seqid pos ref alt s1 s2 s3 s4";
    "ctg1 100 A G 3 3 3 1";
    "ctg1 100 A T 3 3 3 1" ].


(** The tuples [resolve] keeps of these matrices. *)
Definition marker_100 : marker :=
  {| seqid := "ctg1"; pos := 100; ref := "A"; alt := "G";
     c := Counter ["3"; "3"; "0"; "1"]; hetratio := 2 # 3 |}.

Definition marker_200 : marker :=
  {| seqid := "ctg1"; pos := 200; ref := "A"; alt := "G";
     c := Counter ["3"; "3"; "3"; "1"]; hetratio := 3 # 4 |}.

Definition marker_100_G : marker :=
  {| seqid := "ctg1"; pos := 100; ref := "A"; alt := "G";
     c := Counter ["3"; "3"; "3"; "1"]; hetratio := 3 # 4 |}.

Definition marker_100_T : marker :=
  {| seqid := "ctg1"; pos := 100; ref := "A"; alt := "T";
     c := Counter ["3"; "3"; "3"; "1"]; hetratio := 3 # 4 |}.

(** The record [solve] prints for the pair [(a, b)]. *)
Definition pair_record (self : HaplotypeResolver) (p : string * string) : record :=
  CoOccurrence p.1 p.2 (cooccurrence self p.1 p.2).

(** [p] is the pair (a, b) or the pair (b, a). *)
Definition same_pair (a b : string) (p : string * string) : Prop :=
  (p.1 = a ∧ p.2 = b) ∨ (p.1 = b ∧ p.2 = a).

#[global] Instance same_pair_dec a b p : Decision (same_pair a b p).
Proof. unfold same_pair. apply _. Defined.

(** The read's position in [query_sequence], when it has one, is inside
    the sequence. *)
Definition in_range (r : PileupRead) : Prop :=
  match query_position r with
  | Some q => 0 ≤ q < Z.of_nat (String.length (query_sequence (alignment r)))
  | None => True
  end.

(** The column is at 1-based position [p] and one of its reads has no
    position in its sequence (a deletion or a skip). *)
Definition deletion_at (p : Z) (col : PileupColumn) : Prop :=
  reference_pos col = p - 1 ∧ Exists (λ r, query_position r = None) (pileups col).

#[global] Instance deletion_at_dec p col : Decision (deletion_at p col).
Proof. unfold deletion_at. apply _. Defined.

(** A sample in which read [r2] has a deletion at position 100. *)
Definition sample_with_deletion : AlignmentFile :=
  {| pileup := λ _,
       Ok [ {| reference_pos := 99;
               pileups := [ pileup_read "r1" "ACGT" 0;
                            {| alignment := {| query_name := "r2"; query_sequence := "ACGT" |};
                               query_position := None |} ] |} ] |}.

(** The contigs of the summary records of an output, in order. *)
Definition contigs_of (out : list record) : list string :=
  omap (λ r, match r with
             | Summary seqid _ => Some seqid
             | CoOccurrence _ _ _ => None
             end) out.

(** Strictly before, in the order of [str]. *)
Definition string_lt (a b : string) : Prop := String.compare a b = Lt.

(** ** Lists and numbers as text, for [formats/cas.py] *)

(** [l[i]] on a list: negative indices count from the end, anything out
    of range raises [IndexError]. *)
Definition getitem_list {A} (l : list A) (i : Z) : result A :=
  let n := Z.of_nat (length l) in
  let j := if i <? 0 then i + n else i in
  if (0 <=? j) && (j <? n)
  then match l !! Z.to_nat j with
       | Some x => Ok x
       | None => Raise IndexError
       end
  else Raise IndexError.

Definition digit_char (d : Z) : ascii := ascii_of_N (Z.to_N (48 + d)).

(** The decimal digits of [n], most significant first, put before [acc];
    [fuel] bounds the number of digits. *)
Fixpoint str_digits (fuel : nat) (n : Z) (acc : string) : string :=
  match fuel with
  | O => acc
  | S fuel' =>
      let acc' := String (digit_char (n mod 10)) acc in
      if n <? 10 then acc' else str_digits fuel' (n / 10) acc'
  end.

(** [str(z)] of an integer. *)
Definition str (z : Z) : string :=
  if z <? 0
  then String "-"%char (str_digits (S (Z.to_nat (Z.log2 (- z)))) (- z) EmptyString)
  else str_digits (S (Z.to_nat (Z.log2 z))) z EmptyString.

(** [sep.join(l)] *)
Fixpoint join (sep : string) (l : list string) : string :=
  match l with
  | [] => EmptyString
  | [x] => x
  | x :: l' => x +:+ sep +:+ join sep l'
  end.

(** [range(a, b)] *)
Definition range (a b : Z) : list Z :=
  (λ k, a + Z.of_nat k) <$> seq 0 (Z.to_nat (b - a)).

(** No character of [s] is whitespace. *)
Fixpoint no_space (s : string) : bool :=
  match s with
  | EmptyString => true
  | String ch s' => negb (isspace ch) && no_space s'
  end.

(** ** [formats/cas.py] *)

Module Cas.

(** [CasTabLine]: a line of the table of [assembly_table -n -s -p]. *)
Record CasTabLine : Type := {
  readnum : string;
  readname : string;
  readlen : Z;
  readstart : Z;
  readstop : Z;
  refnum : Z;
  refstart : Z;
  refstop : Z;
  is_reversed : bool;
  strand : string;
  nummatches : Z;
  is_paired : bool;
  score : Z
}.

(** [int(args[i])] *)
Definition int_at (args : list string) (i : Z) : result Z :=
  getitem_list args i ≫= int.

(** [CasTabLine.__init__] (cas.py 31-55); the 0-based starts of the table
    become 1-based unless negative. *)
Definition CasTabLine_init (line : string) : result CasTabLine :=
  let args := split line in
  readnum ← getitem_list args 0;
  readname ← getitem_list args 1;
  readlen ← int_at args (-10);
  readstart ← int_at args (-9);
  let readstart := if decide (readstart >= 0) then readstart + 1 else readstart in
  readstop ← int_at args (-8);
  refnum ← int_at args (-7);
  refstart ← int_at args (-6);
  let refstart := if decide (refstart >= 0) then refstart + 1 else refstart in
  refstop ← int_at args (-5);
  reversed ← int_at args (-4);
  let is_reversed := bool_decide (reversed = 1) in
  let strand := if is_reversed then "-" else "+" in
  nummatches ← int_at args (-3);
  paired ← int_at args (-2);
  let is_paired := bool_decide (paired = 1) in
  score ← int_at args (-1);
  Ok {| readnum := readnum; readname := readname; readlen := readlen;
        readstart := readstart; readstop := readstop; refnum := refnum;
        refstart := refstart; refstop := refstop; is_reversed := is_reversed;
        strand := strand; nummatches := nummatches; is_paired := is_paired;
        score := score |}.

(** The fields of [bedline] (cas.py 58-61) after [str], [refnum] being
    already text. *)
Definition bedfields (refnum : string) (b : CasTabLine) : list string :=
  [refnum; str (refstart b - 1); str (refstop b); readname b; str (score b); strand b].

(** The property [bedline] of a line as parsed, [refnum] a number. *)
Definition bedline (b : CasTabLine) : string :=
  join (String (ascii_of_nat 9) EmptyString) (bedfields (str (refnum b)) b).

(** The loop of [bed] (cas.py 282-287) over the lines [fp] of the table,
    [fw] the lines written so far; [b.refnum = refnames[b.refnum]] makes
    [refnum] the name of the reference before [bedline] is taken. *)
Fixpoint bed (refnames : list string) (fp : list string) (fw : list string)
  : list string * result unit :=
  match fp with
  | [] => (fw, Ok tt)
  | row :: fp' =>
      match CasTabLine_init row with
      | Raise e => (fw, Raise e)
      | Ok b =>
          if decide (readstart b = -1) then bed refnames fp' fw
          else match getitem_list refnames (refnum b) with
               | Raise e => (fw, Raise e)
               | Ok name =>
                   bed refnames fp'
                       (fw ++ [join (String (ascii_of_nat 9) EmptyString) (bedfields name b)])
               end
      end
  end.

(** [[CasTabLine(row) for i, row in enumerate(fp) if i < nrows]]
    (cas.py 311), [i] the index of the first line of [fp]. *)
Fixpoint pairs_data (nrows : Z) (i : Z) (fp : list string) : result (list CasTabLine) :=
  match fp with
  | [] => Ok []
  | row :: fp' =>
      if decide (i < nrows)
      then b ← CasTabLine_init row; data ← pairs_data nrows (i + 1) fp'; Ok (b :: data)
      else pairs_data nrows (i + 1) fp'
  end.

(** [split_cmd.format(casfile=casfile, i=i)] (cas.py 239-243) *)
Definition split_cmd (casfile : string) (i : Z) : string :=
  "sub_assembly -a " +:+ casfile +:+ " -o sa." +:+ str i +:+ ".cas -s " +:+ str i
  +:+ " -e sa." +:+ str i +:+ ".pairs.fasta -f sa." +:+ str i
  +:+ ".fragments.fasta -g sa." +:+ str i +:+ ".ref.fasta".

(** [split] (cas.py 235-244): the commands handed to [sh], in order. *)
Definition split (casfile start end_ : string) : result (list string) :=
  start ← int start;
  end_ ← int end_;
  Ok (split_cmd casfile <$> range start (end_ + 1)).

Section FastPairs.

(** [range_distance] of [jcvi.utils.range] and the table
    [orientationlabels] of [jcvi.assembly.base] are not under [src/]; they
    are parameters here, the lookup in the table taken to succeed. *)
Variable orientation : Type.
Variable range_distance : Z * Z * Z * string → Z * Z * Z * string → Z * orientation.
Variable orientationlabels : orientation → string.

(** cas.py 173-184: what a pair of parsed lines adds to the output. *)
Definition fastpairs_print (a b : CasTabLine) (out : list string) : list string :=
  if decide (refstart a ≠ -1 ∧ refstart b ≠ -1)
  then let '(dist, o) := range_distance (refnum a, refstart a, refstop a, strand a)
                                        (refnum b, refstart b, refstop b, strand b) in
       let o := orientationlabels o in
       if decide (dist ≠ -1)
       then out ++ [join (String (ascii_of_nat 9) EmptyString)
                         [readname a; readname b; str dist; o]]
       else out
  else out.

(** cas.py 172: [a, b = CasTabLine(arow), CasTabLine(brow)] *)
Definition fastpairs_parse (arow brow : string) : result (CasTabLine * CasTabLine) :=
  a ← CasTabLine_init arow; b ← CasTabLine_init brow; Ok (a, b).

(** The loop of [fastpairs] (cas.py 169-185) on the lines [fp] still to
    read; [readline] gives the empty string at the end of the file. *)
Fixpoint fastpairs (fp : list string) (out : list string) : list string * result unit :=
  match fp with
  | [] => (out, Ok tt)
  | arow :: fp' =>
      if decide (arow = EmptyString) then (out, Ok tt)
      else match fp' with
           | [] =>
               match fastpairs_parse arow EmptyString with
               | Ok (a, b) => (fastpairs_print a b out, Ok tt)
               | Raise e => (out, Raise e)
               end
           | brow :: fp'' =>
               match fastpairs_parse arow brow with
               | Ok (a, b) => fastpairs fp'' (fastpairs_print a b out)
               | Raise e => (out, Raise e)
               end
           end
  end.

End FastPairs.

(** The row parses and its read start is not -1: [bed] writes a line for
    it. *)
Definition is_mapped (row : string) : bool :=
  match CasTabLine_init row with
  | Ok b => bool_decide (readstart b ≠ -1)
  | Raise _ => false
  end.

End Cas.

(** ** [count] of [projects/tgbs.py] (lines 170-178) *)

(** A failed [assert], besides the exceptions of [exn]. *)
Inductive failure : Type :=
  | Exception (e : exn)
  | AssertionError.

(** [s.startswith(prefix)] *)
Fixpoint startswith (s prefix : string) : bool :=
  match prefix with
  | EmptyString => true
  | String ch prefix' =>
      match s with
      | EmptyString => false
      | String ch' s' => if decide (ch' = ch) then startswith s' prefix' else false
      end
  end.

(** One pass of the loop over the descriptions: the size appended to
    [sizes]. *)
Definition count_size (desc : string) : Z + failure :=
  if startswith desc "singleton" then inl 1
  else match split desc with
       | [name; w; size; seqs] =>
           if decide (w = "with")
           then match int size with
                | Ok size => inl size
                | Raise e => inr (Exception e)
                end
           else inr AssertionError
       | _ => inr (Exception ValueError)
       end.

(** The loop over the descriptions, [sizes] the list built so far. *)
Fixpoint count_sizes (descs : list string) (sizes : list Z) : list Z + failure :=
  match descs with
  | [] => inl sizes
  | desc :: descs' =>
      match count_size desc with
      | inl size => count_sizes descs' (sizes ++ [size])
      | inr f => inr f
      end
  end.

(** ** Counters *)

Lemma get_insert (c : gmap string Z) k k' v d :
  get (<[k := v]> c) k' d = if decide (k = k') then v else get c k' d.
Proof.
  unfold get. rewrite lookup_insert. by destruct (decide (k = k')).
Qed.

Lemma occurrences_cons k x l :
  occurrences k (x :: l) = (if decide (x = k) then 1 else 0) + occurrences k l.
Proof.
  unfold occurrences. rewrite filter_cons.
  destruct (decide (x = k)); simpl; lia.
Qed.

Lemma occurrences_nonneg k l : 0 ≤ occurrences k l.
Proof. unfold occurrences. lia. Qed.

Lemma occurrences_le_length k l : occurrences k l ≤ Z.of_nat (length l).
Proof. unfold occurrences. pose proof (length_filter (λ x, x = k) l). lia. Qed.

Lemma occurrences_pos k l : 0 < occurrences k l ↔ k ∈ l.
Proof.
  induction l as [|x l IH].
  - unfold occurrences. simpl. rewrite elem_of_nil. lia.
  - rewrite occurrences_cons, elem_of_cons.
    pose proof (occurrences_nonneg k l).
    destruct (decide (x = k)) as [->|]; [split; [auto|lia]|].
    rewrite <- IH. split; [lia|]. intros [?|?]; [congruence|lia].
Qed.

Lemma occurrences_NoDup k l : NoDup l → k ∈ l → occurrences k l = 1.
Proof.
  induction 1 as [|x l Hx Hl IH]; [by rewrite elem_of_nil|].
  rewrite occurrences_cons, elem_of_cons.
  destruct (decide (x = k)) as [->|].
  - intros _. assert (¬ 0 < occurrences k l) by by rewrite occurrences_pos.
    pose proof (occurrences_nonneg k l). lia.
  - intros [?|?]; [congruence|]. rewrite IH by done. lia.
Qed.

(** The loop of [Counter(iterable)], started from any counter. *)
Lemma Counter_loop_get (c : gmap string Z) l k :
  get (foldl (λ self elem, <[elem := get self elem 0 + 1]> self) c l) k 0
  = get c k 0 + occurrences k l.
Proof.
  revert c. induction l as [|x l IH]; intros c; simpl.
  - unfold occurrences. simpl. lia.
  - rewrite IH, get_insert, occurrences_cons.
    destruct (decide (x = k)) as [->|]; lia.
Qed.

Lemma Counter_loop_None (c : gmap string Z) l k :
  foldl (λ self elem, <[elem := get self elem 0 + 1]> self) c l !! k = None
  ↔ c !! k = None ∧ k ∉ l.
Proof.
  revert c. induction l as [|x l IH]; intros c; simpl.
  - rewrite elem_of_nil. tauto.
  - rewrite IH, lookup_insert_None, not_elem_of_cons.
    split; [intros [[? ?] ?]|intros [? [? ?]]]; repeat split; congruence || auto.
Qed.

Lemma Counter_get l k : get (Counter l) k 0 = occurrences k l.
Proof. unfold Counter. rewrite Counter_loop_get. unfold get. by rewrite lookup_empty. Qed.

Lemma Counter_lookup l k :
  Counter l !! k = if decide (k ∈ l) then Some (occurrences k l) else None.
Proof.
  destruct (decide (k ∈ l)) as [Hk|Hk].
  - destruct (Counter l !! k) as [n|] eqn:E.
    + pose proof (Counter_get l k) as G. unfold get in G. rewrite E in G. simpl in G.
      by subst.
    + apply Counter_loop_None in E. tauto.
  - apply Counter_loop_None. by rewrite lookup_empty.
Qed.

(** A set counts each of its members once. *)
Lemma Counter_elements (s : gset string) k :
  Counter (elements s) !! k = if decide (k ∈ s) then Some 1 else None.
Proof.
  rewrite Counter_lookup.
  destruct (decide (k ∈ elements s)) as [Hk|Hk]; rewrite elem_of_elements in Hk.
  - rewrite decide_True by done. f_equal.
    apply occurrences_NoDup; [apply NoDup_elements|by apply elem_of_elements].
  - by rewrite decide_False.
Qed.

Lemma update_lookup (self other : gmap string Z) k :
  update self other !! k =
    match other !! k with
    | Some n => Some (get self k 0 + n)
    | None => self !! k
    end.
Proof.
  unfold update.
  apply (map_fold_weak_ind
           (λ r m, r !! k = match m !! k with
                            | Some n => Some (get self k 0 + n)
                            | None => self !! k
                            end)).
  - by rewrite lookup_empty.
  - intros i x m r Hi IH. rewrite !lookup_insert.
    destruct (decide (i = k)) as [->|]; [|done].
    f_equal. unfold get at 1. rewrite IH, Hi. done.
Qed.

(** ** The population counter *)

Lemma samples_with_cons a (s : gset string) hs :
  samples_with a (s :: hs) = (if decide (a ∈ s) then 1 else 0) + samples_with a hs.
Proof.
  unfold samples_with. rewrite filter_cons.
  destruct (decide (a ∈ s)); simpl; lia.
Qed.

Lemma samples_with_both_cons a b (s : gset string) hs :
  samples_with_both a b (s :: hs)
  = (if decide (a ∈ s ∧ b ∈ s) then 1 else 0) + samples_with_both a b hs.
Proof.
  unfold samples_with_both. rewrite filter_cons.
  destruct (decide (a ∈ s ∧ b ∈ s)); simpl; lia.
Qed.

Lemma samples_with_pos a hs : 0 < samples_with a hs ↔ ∃ s : gset string, s ∈ hs ∧ a ∈ s.
Proof.
  induction hs as [|s hs IH].
  - unfold samples_with. simpl. split; [lia|]. intros (s & Hs & _). by apply elem_of_nil in Hs.
  - rewrite samples_with_cons. setoid_rewrite elem_of_cons.
    assert (0 ≤ samples_with a hs) by (unfold samples_with; lia).
    destruct (decide (a ∈ s)).
    + split; [eauto|lia].
    + split.
      * intros Hpos. destruct IH as [IH _]. destruct IH as (s' & ? & ?); [lia|eauto].
      * intros (s' & [->|?] & ?); [done|]. destruct IH as [_ IH]. 
        assert (0 < samples_with a hs) by eauto. lia.
Qed.

Lemma samples_with_both_le a b hs :
  samples_with_both a b hs ≤ Z.min (samples_with a hs) (samples_with b hs).
Proof.
  induction hs as [|s hs IH].
  - unfold samples_with_both, samples_with. simpl. lia.
  - rewrite samples_with_both_cons, !samples_with_cons.
    destruct (decide (a ∈ s ∧ b ∈ s)) as [[??]|Hn].
    + rewrite !decide_True by done. lia.
    + destruct (decide (a ∈ s)), (decide (b ∈ s)); try tauto; lia.
Qed.

(** The loop of [__init__], started from any counter. *)
Lemma init_loop_lookup (c : gmap string Z) hs a :
  foldl (λ counter haplotypes, update counter (Counter (elements haplotypes))) c hs !! a
  = if decide (0 < samples_with a hs) then Some (get c a 0 + samples_with a hs)
    else c !! a.
Proof.
  revert c. induction hs as [|s hs IH]; intros c; simpl.
  - unfold samples_with. simpl. done.
  - rewrite IH, samples_with_cons. unfold get at 1.
    rewrite update_lookup, Counter_elements.
    assert (0 ≤ samples_with a hs) by (unfold samples_with; lia).
    destruct (decide (a ∈ s)).
    + rewrite (decide_True (P := 0 < 1 + _)) by lia. simpl.
      destruct (decide (0 < samples_with a hs)); f_equal; lia.
    + destruct (decide (0 < samples_with a hs)).
      * rewrite decide_True by lia. done.
      * rewrite decide_False by lia. done.
Qed.

Lemma counter_lookup hs a :
  counter (HaplotypeResolver_init hs) !! a
  = if decide (0 < samples_with a hs) then Some (samples_with a hs) else None.
Proof.
  simpl. rewrite init_loop_lookup. unfold get. rewrite lookup_empty. simpl.
  destruct (decide (0 < samples_with a hs)); done.
Qed.

Lemma sum_loop (l : list Z) acc : foldl Z.add acc l = acc + foldl Z.add 0 l.
Proof.
  revert acc. induction l as [|x l IH]; intros acc; simpl; [lia|].
  rewrite (IH (acc + x)), (IH (0 + x)). lia.
Qed.

Lemma sum_ones {A} (l : list A) : sum ((λ _, 1) <$> l) = Z.of_nat (length l).
Proof.
  unfold sum. induction l as [|x l IH]; [done|].
  cbn [fmap list_fmap foldl length]. rewrite sum_loop, IH. lia.
Qed.

Lemma cooccurrence_samples hs a b :
  cooccurrence (HaplotypeResolver_init hs) a b = samples_with_both a b hs.
Proof. unfold cooccurrence. by rewrite sum_ones. Qed.

(** ** Pairs and 2-combinations *)

Lemma combinations_1 {A} (l : list A) : combinations l 1 = (λ x, [x]) <$> l.
Proof.
  induction l as [|x l IH]; [done|].
  cbn [combinations]. rewrite IH. by destruct l.
Qed.

Lemma combinations_2 {A} (l : list A) :
  combinations l 2 = (λ p, [p.1; p.2]) <$> pairs l.
Proof.
  induction l as [|x l IH]; [done|].
  cbn [combinations pairs]. rewrite IH, combinations_1, fmap_app.
  f_equal. rewrite <- !list_fmap_compose. done.
Qed.

Lemma pairs_fmap {A B} (f : A → B) (l : list A) :
  pairs (f <$> l) = prod_map f f <$> pairs l.
Proof.
  induction l as [|x l IH]; [done|].
  cbn [pairs fmap list_fmap]. fold (f <$> l). rewrite IH, fmap_app.
  f_equal. rewrite <- !list_fmap_compose. done.
Qed.

Lemma pairs_elem_of {A} (l : list A) p : p ∈ pairs l → p.1 ∈ l ∧ p.2 ∈ l.
Proof.
  induction l as [|x l IH]; cbn [pairs]; [by rewrite elem_of_nil|].
  rewrite elem_of_app, list_elem_of_fmap, !elem_of_cons.
  intros [(y & -> & Hy)|Hp]; simpl; [auto|].
  destruct (IH Hp). auto.
Qed.

Lemma pairs_distinct {A} (l : list A) p : NoDup l → p ∈ pairs l → p.1 ≠ p.2.
Proof.
  induction 1 as [|x l Hx Hl IH]; cbn [pairs]; [by rewrite elem_of_nil|].
  rewrite elem_of_app, list_elem_of_fmap.
  intros [(y & -> & Hy)|Hp]; simpl; [|auto].
  intros ->. done.
Qed.

Lemma length_filter_fmap {A B} (P : B → Prop) `{!∀ y, Decision (P y)}
    (f : A → B) (l : list A) :
  length (filter P (f <$> l)) = length (filter (λ x, P (f x)) l).
Proof.
  induction l as [|x l IH]; [done|].
  cbn [fmap list_fmap]. fold (f <$> l). rewrite !filter_cons.
  destruct (decide (P (f x))); simpl; by rewrite IH.
Qed.

Lemma filter_none {A} (P : A → Prop) `{!∀ y, Decision (P y)} (l : list A) :
  (∀ x, x ∈ l → ¬ P x) → filter P l = [].
Proof.
  induction l as [|x l IH]; intros HP; [done|].
  rewrite filter_cons_False by (apply HP; left).
  apply IH. intros y Hy. apply HP. by right.
Qed.

Lemma length_filter_eq_NoDup (b : string) (l : list string) :
  NoDup l → b ∈ l → length (filter (λ y, y = b) l) = 1%nat.
Proof.
  intros Hl Hb. pose proof (occurrences_NoDup b l Hl Hb) as H.
  unfold occurrences in H. lia.
Qed.

(** In a duplicate-free list every unordered pair of distinct members is
    enumerated exactly once by [pairs]. *)
Lemma pairs_once (a b : string) (l : list string) :
  NoDup l → a ≠ b → a ∈ l → b ∈ l →
  length (filter (same_pair a b) (pairs l)) = 1%nat.
Proof.
  induction 1 as [|x l Hx Hl IH]; intros Hab Ha Hb; [by apply elem_of_nil in Ha|].
  cbn [pairs]. rewrite filter_app, length_app, length_filter_fmap.
  apply elem_of_cons in Ha, Hb.
  destruct (decide (x = a)) as [->|Hxa]; [|destruct (decide (x = b)) as [->|Hxb]].
  - destruct Hb as [->|Hb]; [done|].
    rewrite (filter_none _ (pairs l)).
    + rewrite (list_filter_iff _ (λ y, y = b)).
      * rewrite length_filter_eq_NoDup by done. done.
      * intros y. unfold same_pair. simpl. split; [intros [[_ ?]|[? _]]|]; auto. done.
    + intros p Hp [[? _]|[_ ?]]; apply pairs_elem_of in Hp as [??]; congruence.
  - destruct Ha as [->|Ha]; [done|].
    rewrite (filter_none _ (pairs l)).
    + rewrite (list_filter_iff _ (λ y, y = a)).
      * rewrite length_filter_eq_NoDup by done. done.
      * intros y. unfold same_pair. simpl. split; [intros [[? _]|[_ ?]]|]; auto. done.
    + intros p Hp [[_ ?]|[? _]]; apply pairs_elem_of in Hp as [??]; congruence.
  - destruct Ha as [->|Ha]; [done|]. destruct Hb as [->|Hb]; [done|].
    rewrite (filter_none _ l).
    + simpl. by apply IH.
    + intros y _ [[? _]|[? _]]; simpl in *; congruence.
Qed.

(** ** Loops that write to [fw] *)

Lemma bind_lift_ok {A B} (m : result A) (k : A → IO B) a fw :
  m = Ok a → (lift m ≫= k) fw = k a fw.
Proof. by intros ->. Qed.

Lemma bind_lift_raise {A B} (m : result A) (k : A → IO B) e fw :
  m = Raise e → (lift m ≫= k) fw = (fw, Raise e).
Proof. by intros ->. Qed.

Lemma for_each_fmap {A B} (f : A → B) (l : list A) (body : B → IO unit) :
  for_each (f <$> l) body = for_each l (λ x, body (f x)).
Proof. induction l as [|x l IH]; [done|]. cbn. by rewrite IH. Qed.

Lemma for_each_print {A} (g : A → record) (l : list A) (body : A → IO unit) fw :
  (∀ x, body x = print (g x)) →
  for_each l body fw = (fw ++ (g <$> l), Ok tt).
Proof.
  intros Hbody. revert fw. induction l as [|x l IH]; intros fw.
  - cbn. by rewrite app_nil_r.
  - cbn [for_each]. unfold mbind, IO_bind. rewrite Hbody. unfold print.
    rewrite IH. cbn. by rewrite <- app_assoc.
Qed.

Lemma for_each_cons {A} (x : A) (l : list A) (body : A → IO unit) fw fw' :
  body x fw = (fw', Ok tt) →
  for_each (x :: l) body fw = for_each l body fw'.
Proof. intros Hx. cbn [for_each]. unfold mbind, IO_bind. by rewrite Hx. Qed.

Lemma for_each_raise {A} (x : A) (l : list A) (body : A → IO unit) fw fw' e :
  body x fw = (fw', Raise e) →
  for_each (x :: l) body fw = (fw', Raise e).
Proof. intros Hx. cbn [for_each]. unfold mbind, IO_bind. by rewrite Hx. Qed.

Lemma population_count_get (hs : list (gset string)) a :
  get (counter (HaplotypeResolver_init hs)) a 0 = samples_with a hs.
Proof.
  unfold get. rewrite counter_lookup.
  assert (0 ≤ samples_with a hs) by (unfold samples_with; lia).
  destruct (decide (0 < samples_with a hs)); simpl; lia.
Qed.

(** ** The population counter and the co-occurrence table *)

(** C3.  The count [__init__] gives a haplotype string is the number of
    samples whose set contains it; the string is a key of the counter
    exactly when some sample has it; and a sample all of whose reads (one
    or more) show the same haplotype adds one to that count, however many
    reads there are. *)
Theorem population_count_is_per_sample (hs : list (gset string)) (a : string) :
  get (counter (HaplotypeResolver_init hs)) a 0 = samples_with a hs
  ∧ (is_Some (counter (HaplotypeResolver_init hs) !! a)
     ↔ ∃ haplotypes : gset string, haplotypes ∈ hs ∧ a ∈ haplotypes)
  ∧ ∀ nreads : nat,
      get (counter (HaplotypeResolver_init (list_to_set (replicate (S nreads) a) :: hs))) a 0
      = 1 + get (counter (HaplotypeResolver_init hs)) a 0.
Proof.
  pose proof (λ l, population_count_get l a) as G.
  split; [apply G|split].
  - rewrite counter_lookup, <- samples_with_pos.
    destruct (decide (0 < samples_with a hs)); [by split; eauto|].
    split; [by intros [? ?]|done].
  - intros nreads. rewrite !G, samples_with_cons, decide_True; [done|].
    apply elem_of_list_to_set. simpl. left.
Qed.

Section Solve.

Variable items : gmap string Z → list (string * Z).
Hypothesis items_perm : ∀ d, items d ≡ₚ map_to_list d.

Lemma items_NoDup (d : gmap string Z) : NoDup ((items d).*1).
Proof using items_perm. rewrite items_perm. apply NoDup_fst_map_to_list. Qed.

Lemma items_keys (d : gmap string Z) k : k ∈ (items d).*1 ↔ is_Some (d !! k).
Proof using items_perm.
  rewrite items_perm, list_elem_of_fmap. split.
  - intros ([k' v] & -> & Hkv). apply elem_of_map_to_list in Hkv. eauto.
  - intros [v Hv]. exists (k, v). by rewrite elem_of_map_to_list.
Qed.

(** What [solve] writes: the records of the pairs of keys, in the order of
    [combinations]; it never raises. *)
Lemma solve_records (self : HaplotypeResolver) fw :
  solve items self fw
  = (fw ++ (pair_record self <$> pairs ((items (counter self)).*1)), Ok tt).
Proof.
  unfold solve. rewrite combinations_2, for_each_fmap, pairs_fmap.
  rewrite <- list_fmap_compose.
  apply for_each_print. intros [[a ai] [b bi]]. done.
Qed.

Lemma record_of_pair_record self a b p :
  record_of_pair a b (pair_record self p) = true ↔ same_pair a b p.
Proof.
  unfold record_of_pair, pair_record, same_pair.
  rewrite orb_true_iff, !bool_decide_eq_true. done.
Qed.

(** C4.  [solve] writes, after what [fw] already holds, records that are
    each the record of two distinct keys of the counter with the number of
    samples having both; and every unordered pair of distinct keys has
    exactly one record among them, in one orientation only. *)
Theorem solve_one_record_per_pair (hs : list (gset string)) (fw : list record) :
  let self := HaplotypeResolver_init hs in
  ∃ out : list record,
    solve items self fw = (fw ++ out, Ok tt)
    ∧ (∀ r, r ∈ out →
         ∃ a b, r = CoOccurrence a b (samples_with_both a b hs) ∧ a ≠ b
                ∧ is_Some (counter self !! a) ∧ is_Some (counter self !! b))
    ∧ (∀ a b, a ≠ b → is_Some (counter self !! a) → is_Some (counter self !! b) →
         length (filter (λ r, record_of_pair a b r = true) out) = 1%nat).
Proof using items_perm.
  intros self. eexists. split; [apply solve_records|]. split.
  - intros r Hr. apply list_elem_of_fmap in Hr as ([a b] & -> & Hp).
    exists a, b. unfold pair_record, self. simpl. split; [by rewrite cooccurrence_samples|].
    split; [apply (pairs_distinct _ _ (items_NoDup _) Hp)|].
    apply pairs_elem_of in Hp as [Ha Hb]. by rewrite <- !items_keys.
  - intros a b Hab Ha Hb. rewrite length_filter_fmap.
    rewrite (list_filter_iff _ (same_pair a b))
      by (intros p; apply record_of_pair_record).
    apply pairs_once; [apply items_NoDup|done|by apply items_keys..].
Qed.

(** C5.  Every record [solve] writes carries a count that is at most the
    population count of either haplotype of the pair, and so does the
    co-occurrence count of any two strings. *)
Theorem cooccurrence_le_min_frequency (hs : list (gset string)) (fw : list record) :
  let self := HaplotypeResolver_init hs in
  (∃ out : list record,
     solve items self fw = (fw ++ out, Ok tt)
     ∧ ∀ a b abi, CoOccurrence a b abi ∈ out →
         ∃ ai bi, counter self !! a = Some ai ∧ counter self !! b = Some bi
                  ∧ abi ≤ Z.min ai bi)
  ∧ ∀ a b, cooccurrence self a b
           ≤ Z.min (get (counter self) a 0) (get (counter self) b 0).
Proof using items_perm.
  intros self.
  assert (G : ∀ a, get (counter self) a 0 = samples_with a hs)
    by (intros a; apply population_count_get).
  split.
  - eexists. split; [apply solve_records|].
    intros a b abi Hr. apply list_elem_of_fmap in Hr as ([a' b'] & Heq & Hp).
    unfold pair_record in Heq. simpl in Heq. injection Heq as -> -> ->.
    apply pairs_elem_of in Hp as [Ha Hb]. cbn [fst snd] in Ha, Hb.
    apply items_keys in Ha as [ai Ha], Hb as [bi Hb].
    exists ai, bi. split; [done|split; [done|]].
    pose proof (G a') as Ga. pose proof (G b') as Gb.
    unfold get in Ga, Gb. rewrite Ha in Ga. rewrite Hb in Gb. simpl in Ga, Gb.
    subst ai bi. unfold self. rewrite cooccurrence_samples.
    apply samples_with_both_le.
  - intros a b. rewrite !G. unfold self. rewrite cooccurrence_samples.
    apply samples_with_both_le.
Qed.

(** C8.  Three samples with the sets {AT, GC}, {AT} and {GC}: the
    counter is AT=2, GC=2, and [solve] writes one record, of AT and GC
    with count 1, in the order the dict happens to list the two keys. *)
Theorem scenario_three_samples (fw : list record) :
  let self := HaplotypeResolver_init [{["AT"; "GC"]}; {["AT"]}; {["GC"]}] in
  counter self = {["AT" := 2; "GC" := 2]}
  ∧ (solve items self fw = (fw ++ [CoOccurrence "AT" "GC" 1], Ok tt)
     ∨ solve items self fw = (fw ++ [CoOccurrence "GC" "AT" 1], Ok tt)).
Proof using items_perm.
  intros self.
  assert (Hc : counter self = {["AT" := 2; "GC" := 2]}) by (vm_compute; reflexivity).
  split; [exact Hc|].
  rewrite solve_records.
  pose proof (items_perm (counter self)) as Hperm. rewrite Hc in Hperm.
  assert (Hl : map_to_list ({["AT" := 2; "GC" := 2]} : gmap string Z)
               = [("GC", 2); ("AT", 2)]) by (vm_compute; reflexivity).
  rewrite Hl in Hperm. symmetry in Hperm.
  apply Permutation_length_2_inv in Hperm as [Hi|Hi]; rewrite Hc, Hi; [right|left];
    do 2 f_equal.
Qed.

(** The loop over [samfiles] when every extraction returns. *)
Lemma haplotype_set_loop (samfiles : list AlignmentFile) seqid d hs acc :
  Forall2 (λ samfile haplotypes, extract samfile seqid d = Ok haplotypes) samfiles hs →
  rfold (λ haplotype_set samfile,
           haplotypes ← extract samfile seqid d; Ok (haplotype_set ++ [haplotypes]))
        acc samfiles
  = Ok (acc ++ hs).
Proof.
  intros H. revert acc. induction H as [|samfile haplotypes samfiles hs Hx _ IH]; intros acc.
  - cbn. by rewrite app_nil_r.
  - cbn [rfold]. rewrite Hx. cbn. rewrite IH, <- app_assoc. done.
Qed.

(** The loop over [samfiles] when one extraction raises. *)
Lemma haplotype_set_loop_raise (before after : list AlignmentFile) samfile seqid d hs acc e :
  Forall2 (λ samfile haplotypes, extract samfile seqid d = Ok haplotypes) before hs →
  extract samfile seqid d = Raise e →
  rfold (λ haplotype_set samfile,
           haplotypes ← extract samfile seqid d; Ok (haplotype_set ++ [haplotypes]))
        acc (before ++ samfile :: after)
  = Raise e.
Proof.
  intros H He. revert acc. induction H as [|samfile' haplotypes before hs Hx _ IH]; intros acc.
  - cbn. rewrite He. done.
  - cbn [rfold app]. rewrite Hx. cbn. apply IH.
Qed.

Lemma resolve_contig_ok (samfiles : list AlignmentFile) seqid d hs fw :
  Forall2 (λ samfile haplotypes, extract samfile seqid d = Ok haplotypes) samfiles hs →
  let hr := HaplotypeResolver_init hs in
  resolve_contig items samfiles seqid d fw
  = (fw ++ Summary seqid (counter hr)
        :: (pair_record hr <$> pairs ((items (counter hr)).*1)), Ok tt).
Proof.
  intros H hr. unfold resolve_contig.
  rewrite (bind_lift_ok _ _ ([] ++ hs)) by by apply haplotype_set_loop.
  cbn [app]. fold hr. unfold mbind, IO_bind, print.
  rewrite solve_records, <- app_assoc. done.
Qed.

Lemma resolve_contig_raise (before after : list AlignmentFile) samfile seqid d hs fw e :
  Forall2 (λ samfile haplotypes, extract samfile seqid d = Ok haplotypes) before hs →
  extract samfile seqid d = Raise e →
  resolve_contig items (before ++ samfile :: after) seqid d fw = (fw, Raise e).
Proof.
  intros H He. unfold resolve_contig.
  apply bind_lift_raise. by apply (haplotype_set_loop_raise _ _ _ _ _ hs).
Qed.

Lemma counter_no_haplotypes (hs : list (gset string)) :
  Forall (λ haplotypes, haplotypes = ∅) hs → counter (HaplotypeResolver_init hs) = ∅.
Proof.
  intros H. apply map_eq. intros a. rewrite counter_lookup, lookup_empty.
  rewrite decide_False; [done|].
  rewrite samples_with_pos. intros (s & Hs & Ha).
  rewrite Forall_forall in H. rewrite (H s Hs) in Ha. by apply not_elem_of_empty in Ha.
Qed.

(** C9.  When every sample's haplotype set for the contig comes out empty,
    the pass of the contig returns normally having written the summary
    record, with an empty counter, and no co-occurrence record; the loop
    over the contigs then goes on with the next one. *)
Theorem empty_contig_is_reported (samfiles : list AlignmentFile) (seqid : string)
    (d : list marker) (groups : list (string * list marker)) (fw : list record) :
  Forall (λ samfile, extract samfile seqid d = Ok ∅) samfiles →
  counter (HaplotypeResolver_init (replicate (length samfiles) ∅)) = ∅
  ∧ solve items (HaplotypeResolver_init (replicate (length samfiles) ∅)) fw = (fw, Ok tt)
  ∧ resolve_contig items samfiles seqid d fw = (fw ++ [Summary seqid ∅], Ok tt)
  ∧ for_each ((seqid, d) :: groups) (λ '(seqid, d), resolve_contig items samfiles seqid d) fw
    = for_each groups (λ '(seqid, d), resolve_contig items samfiles seqid d)
               (fw ++ [Summary seqid ∅]).
Proof using items_perm.
  intros H.
  assert (Hc : counter (HaplotypeResolver_init (replicate (length samfiles) ∅)) = ∅).
  { apply counter_no_haplotypes, Forall_forall. intros s Hs.
    by apply elem_of_replicate in Hs as [-> _]. }
  assert (Hi : items ∅ = []).
  { apply Permutation_nil_r. rewrite items_perm, map_to_list_empty. done. }
  assert (Hr : ∀ fw, resolve_contig items samfiles seqid d fw
                     = (fw ++ [Summary seqid ∅], Ok tt)).
  { intros fw'.
    rewrite (resolve_contig_ok _ _ _ (replicate (length samfiles) ∅)).
    - rewrite Hc, Hi. done.
    - clear -H. induction H; cbn; constructor; auto. }
  split; [exact Hc|]. split; [|split; [apply Hr|]].
  - rewrite solve_records, Hc, Hi. cbn. by rewrite app_nil_r.
  - apply for_each_cons. apply Hr.
Qed.

End Solve.

(** ** The marker filter *)

(** [int(round(x))] of something that is at most the integer [n] is at
    most [n]. *)
Lemma round_le (x : Q) (n : Z) : (x <= inject_Z n)%Q → round x ≤ n.
Proof.
  intros Hx. unfold round.
  assert (Hz : ∀ z : Z, (inject_Z z < inject_Z n + 1)%Q → z ≤ n).
  { intros z Hz. apply Z.lt_succ_r. rewrite Zlt_Qlt.
    unfold Z.succ. rewrite inject_Z_plus. exact Hz. }
  destruct (Qle_bool 0 x); apply Hz.
  - pose proof (Qfloor_le (x + (1 # 2))). lra.
  - pose proof (Qceiling_lt (x - (1 # 2))) as Hc.
    replace (Qceiling (x - (1 # 2)) - 1) with (Qceiling (x - (1 # 2)) + -1) in Hc by lia.
    rewrite inject_Z_plus in Hc. change (inject_Z (-1)) with (-1 # 1)%Q in Hc. lra.
Qed.

Lemma round_fraction_le (f : Q) (n : Z) :
  (f <= 1)%Q → 0 ≤ n → round (f * inject_Z n) ≤ n.
Proof.
  intros Hf Hn. apply round_le.
  assert (0 <= inject_Z n)%Q by (unfold Qle; simpl; lia).
  nra.
Qed.

Lemma getitem_first (ch : ascii) (s : string) : getitem (String ch s) (Some 0) = Ok ch.
Proof.
  unfold getitem. cbn [String.length Z.ltb Z.compare].
  rewrite Nat2Z.inj_succ.
  destruct (Z.ltb_spec 0 (Z.succ (Z.of_nat (String.length s)))); [done|lia].
Qed.

Lemma getitem_not_zero_division s i : getitem s i ≠ Raise ZeroDivisionError.
Proof.
  unfold getitem. destruct i as [i|]; [|done].
  repeat case_match; done.
Qed.

Lemma int_not_zero_division s : int s ≠ Raise ZeroDivisionError.
Proof. unfold int. repeat case_match; done. Qed.

Lemma split_empty : split EmptyString = [].
Proof. done. Qed.

(** [select] on a row that is not a comment and has its four leading
    columns: what is left is the two tests and the conversion of [pos]. *)
Lemma select_data_row opts ngenotypes nmissing row ch seqid pos ref alt genotypes :
  getitem row (Some 0) = Ok ch → ch ≠ "#"%char →
  split row = seqid :: pos :: ref :: alt :: genotypes →
  select opts ngenotypes nmissing row
  = if decide (occurrences "0" genotypes >= nmissing) then Ok None else
    hetratio ← truediv (occurrences "3" genotypes)
                       (ngenotypes - occurrences "0" genotypes);
    if Qle_bool hetratio (het opts) then Ok None else
    pos ← int pos;
    Ok (Some {| seqid := seqid; pos := pos; ref := ref; alt := alt;
                c := Counter genotypes; hetratio := hetratio |}).
Proof.
  intros Hrow Hch Hsplit. unfold select.
  rewrite Hrow. cbn [mbind result_bind]. rewrite decide_False by done.
  rewrite Hsplit. cbn [take drop]. rewrite !Counter_get. done.
Qed.







(** C10.  With a missingness fraction of at most 1, a row with fewer than
    [round(missing * ngenotypes)] codes ['0'] has a non-zero denominator
    [ngenotypes - c0], a positive one when the header has its four
    leading columns, so that the ratio is computed; and no row makes
    [select] raise [ZeroDivisionError]. *)
Theorem hetratio_denominator_positive (opts : options) (header : list string)
    (row : string) :
  (missing opts <= 1)%Q →
  let ngenotypes := Z.of_nat (length header) - 4 in
  let nmissing := round (missing opts * inject_Z ngenotypes) in
  let c0 := get (Counter (drop 4 (split row))) "0" 0 in
  let c3 := get (Counter (drop 4 (split row))) "3" 0 in
  (c0 < nmissing →
     ngenotypes - c0 ≠ 0
     ∧ ((4 ≤ length header)%nat → 0 < ngenotypes - c0)
     ∧ truediv c3 (ngenotypes - c0)
       = Ok (inject_Z c3 / inject_Z (ngenotypes - c0))%Q)
  ∧ select opts ngenotypes nmissing row ≠ Raise ZeroDivisionError.
Proof.
  intros Hf ngenotypes nmissing c0 c3.
  assert (H0 : 0 ≤ c0) by (unfold c0; rewrite Counter_get; apply occurrences_nonneg).
  assert (Hd : c0 < nmissing → ngenotypes - c0 ≠ 0 ∧ (0 ≤ ngenotypes → 0 < ngenotypes - c0)).
  { intros Hlt. destruct (decide (0 ≤ ngenotypes)) as [Hn|Hn]; [|lia].
    pose proof (round_fraction_le (missing opts) ngenotypes Hf Hn). fold nmissing in H.
    lia. }
  split.
  - intros Hlt. destruct (Hd Hlt) as [Hnz Hpos].
    split; [done|]. split; [intros; apply Hpos; lia|].
    unfold truediv. by rewrite decide_False.
  - unfold select.
    destruct (getitem row (Some 0)) as [row0|e] eqn:Hrow; cbn [mbind result_bind];
      [|intros [= ->]; by apply getitem_not_zero_division in Hrow].
    destruct (decide (row0 = "#"%char)); [done|].
    destruct (take 4 (split row)) as [|? [|? [|? [|? [|? ?]]]]]; try done.
    fold c0 c3. destruct (decide (c0 >= nmissing)) as [|Hlt]; [done|].
    unfold truediv. rewrite decide_False by (apply Hd; lia).
    cbn [mbind result_bind]. destruct (Qle_bool _ _); [done|].
    destruct (int _) as [?|e] eqn:Hint; cbn [mbind result_bind]; [done|].
    intros [= ->]. by apply int_not_zero_division in Hint.
Qed.

(** ** A sample whose pileup raises *)

Lemma collect_raise (samfile : AlignmentFile) seqid (m : marker) d e :
  pileup samfile seqid = Raise e → collect samfile seqid (m :: d) = Raise e.
Proof.
  intros He. unfold collect. cbn [rfold]. unfold collect_marker. by rewrite He.
Qed.

Lemma extract_raise (samfile : AlignmentFile) seqid (d : list marker) e :
  d ≠ [] → pileup samfile seqid = Raise e → extract samfile seqid d = Raise e.
Proof.
  intros Hd He. destruct d as [|m d]; [done|].
  unfold extract. by rewrite (collect_raise _ _ _ _ e).
Qed.

(** C6, as the code has it.  [resolve] has no handler around the pileup:
    when a sample's alignment file raises on the contig, after the samples
    before it were extracted, the exception leaves the pass of the contig
    with nothing written for it, the samples after it are not read, and
    the loop over the contigs stops there. *)
Theorem lookup_failure_propagates (items : gmap string Z → list (string * Z))
    (before after : list AlignmentFile) (samfile : AlignmentFile)
    (seqid : string) (d : list marker) (hs : list (gset string))
    (groups : list (string * list marker)) (fw : list record) (e : exn) :
  d ≠ [] →
  Forall2 (λ samfile haplotypes, extract samfile seqid d = Ok haplotypes) before hs →
  pileup samfile seqid = Raise e →
  extract samfile seqid d = Raise e
  ∧ resolve_contig items (before ++ samfile :: after) seqid d fw = (fw, Raise e)
  ∧ for_each ((seqid, d) :: groups)
             (λ '(seqid, d), resolve_contig items (before ++ samfile :: after) seqid d) fw
    = (fw, Raise e).
Proof.
  intros Hd Hbefore He.
  pose proof (extract_raise samfile seqid d e Hd He) as Hx.
  pose proof (resolve_contig_raise items before after samfile seqid d hs fw e Hbefore Hx)
    as Hr.
  split; [done|]. split; [done|].
  by apply for_each_raise.
Qed.

(** C6 fails on the code: with the two-marker matrix and a sample whose
    file does not know the contig, [resolve] ends with the exception and
    has written nothing, where recording an empty set for that sample
    would have given the summary of [ctg1] and a normal return. *)
Lemma lookup_failure_not_tolerated :
  resolve map_to_list default_options matrix_two_markers
          [sample_two_reads; sample_unknown_contig] []
  = ([], Raise ValueError)
  ∧ resolve map_to_list default_options matrix_two_markers [sample_two_reads] []
    = ([Summary "ctg1" {["AT" := 1]}], Ok tt).
Proof. split; vm_compute; reflexivity. Qed.

(** ** Sorting and grouping the markers *)

Lemma string_compare_refl (s : string) : String.compare s s = Eq.
Proof.
  pose proof (String.compare_antisym s s) as H.
  destruct (String.compare s s); cbn in H; congruence.
Qed.

Lemma marker_lt_key_le x y : marker_lt x y = true → key_le x y.
Proof.
  unfold marker_lt, marker_compare, key_le.
  destruct (String.compare (seqid x) (seqid y)) eqn:Hs; cbn [lex]; [|by left|done].
  apply String.compare_eq_iff in Hs.
  destruct (Z.compare (pos x) (pos y)) eqn:Hp; cbn [lex]; [| |done].
  - apply Z.compare_eq in Hp. intros _. right. split; [done|lia].
  - rewrite Z.compare_lt_iff in Hp. intros _. right. split; [done|lia].
Qed.

Lemma marker_not_lt_key_le x y : marker_lt y x = false → key_le x y.
Proof.
  unfold marker_lt, marker_compare, key_le.
  destruct (String.compare (seqid y) (seqid x)) eqn:Hs; cbn [lex]; [|done|].
  - apply String.compare_eq_iff in Hs.
    destruct (Z.compare (pos y) (pos x)) eqn:Hp; cbn [lex]; [|done|].
    + apply Z.compare_eq in Hp. intros _. right. split; [done|lia].
    + rewrite Z.compare_gt_iff in Hp. intros _. right. split; [done|lia].
  - intros _. left. rewrite String.compare_antisym, Hs. done.
Qed.

Lemma key_le_same_contig x y : key_le x y → seqid x = seqid y → pos x ≤ pos y.
Proof.
  intros [Hlt|[_ ?]] Heq; [|done].
  rewrite Heq, string_compare_refl in Hlt. done.
Qed.

Lemma insert_perm x l : insert x l ≡ₚ x :: l.
Proof.
  induction l as [|y l IH]; [done|].
  cbn [insert]. destruct (marker_lt y x); [|done].
  rewrite IH. apply Permutation_swap.
Qed.

Lemma sort_perm data : sort data ≡ₚ data.
Proof.
  induction data as [|x data IH]; [done|].
  cbn [sort foldr]. fold (sort data). by rewrite insert_perm, IH.
Qed.

Lemma insert_HdRel x y l :
  key_le y x → HdRel key_le y l → HdRel key_le y (insert x l).
Proof.
  intros Hyx Hy. destruct l as [|z l]; cbn [insert]; [by constructor|].
  apply HdRel_inv in Hy. destruct (marker_lt z x); by constructor.
Qed.

Lemma insert_sorted x l : Sorted key_le l → Sorted key_le (insert x l).
Proof.
  induction 1 as [|y l Hl IH Hy]; cbn [insert]; [by repeat constructor|].
  destruct (marker_lt y x) eqn:Hyx.
  - constructor; [done|]. apply insert_HdRel; [|done]. by apply marker_lt_key_le.
  - constructor; [by constructor|]. constructor. by apply marker_not_lt_key_le.
Qed.

Lemma sort_sorted data : Sorted key_le (sort data).
Proof.
  induction data as [|x data IH]; [constructor|].
  cbn [sort foldr]. by apply insert_sorted.
Qed.

Lemma groupby_head x data k g groups :
  groupby (x :: data) = (k, g) :: groups → k = seqid x ∧ ∃ g', g = x :: g'.
Proof.
  cbn [groupby]. destruct (groupby data) as [|[k' g'] groups'].
  - intros [= <- <- _]. eauto.
  - destruct (decide (seqid x = k')); intros [= <- <- _]; eauto.
Qed.

Lemma groupby_nil data : groupby data = [] → data = [].
Proof.
  destruct data as [|x data]; [done|]. cbn [groupby].
  destruct (groupby data) as [|[k g] groups]; [done|].
  by destruct (decide (seqid x = k)).
Qed.

Lemma groupby_concat data : concat ((groupby data).*2) = data.
Proof.
  induction data as [|x data IH]; [done|]. cbn [groupby].
  destruct (groupby data) as [|[k g] groups].
  - cbn in *. by rewrite <- IH.
  - destruct (decide (seqid x = k)); cbn in *; by rewrite <- IH.
Qed.

Lemma groupby_groups data :
  Forall (λ kg, kg.2 ≠ [] ∧ Forall (λ m, seqid m = kg.1) kg.2) (groupby data).
Proof.
  induction data as [|x data IH]; [constructor|]. cbn [groupby].
  destruct (groupby data) as [|[k g] groups].
  - repeat constructor; done.
  - apply Forall_cons in IH as [[Hg Hk] IH]. cbn in Hg, Hk.
    destruct (decide (seqid x = k)).
    + constructor; [|done]. cbn. split; [done|]. by constructor.
    + constructor; [cbn; split; [done|by repeat constructor]|].
      constructor; [|done]. done.
Qed.

Lemma groupby_sorted data :
  Sorted key_le data → Forall (λ kg, Sorted Z.le (pos <$> kg.2)) (groupby data).
Proof.
  induction 1 as [|x data Hdata IH Hx]; [constructor|]. cbn [groupby].
  destruct (groupby data) as [|[k g] groups] eqn:Hg.
  - repeat constructor.
  - apply Forall_cons in IH as [Hs IH]. cbn in Hs.
    destruct (decide (seqid x = k)) as [Hk|Hk].
    + constructor; [|done]. cbn.
      destruct data as [|y data]; [done|].
      apply groupby_head in Hg as [-> [g' ->]].
      apply HdRel_inv in Hx.
      cbn [fmap list_fmap]. constructor; [done|]. constructor.
      by apply key_le_same_contig.
    + constructor; [repeat constructor|]. by constructor.
Qed.

Lemma NoDup_fmap_concat_elem {A B} (f : A → B) (L : list (list A)) g :
  NoDup (f <$> concat L) → g ∈ L → NoDup (f <$> g).
Proof.
  induction L as [|g0 L IH]; [by rewrite elem_of_nil|].
  cbn [concat]. rewrite fmap_app, NoDup_app, elem_of_cons.
  intros (? & _ & ?) [->|?]; auto.
Qed.

Lemma Sorted_le_NoDup_lt (l : list Z) : Sorted Z.le l → NoDup l → Sorted Z.lt l.
Proof.
  induction 1 as [|x l Hl IH Hx]; [constructor|].
  rewrite NoDup_cons. intros [Hnin Hnd]. constructor; [auto|].
  destruct Hx as [|y l' Hxy]; constructor.
  assert (x ≠ y) by (intros ->; apply Hnin; left). lia.
Qed.

(** ** Collecting the observations of a sample *)

Lemma rfold_inv {A B} (I : B → Prop) (body : B → A → result B) l acc r :
  (∀ b x b', I b → body b x = Ok b' → I b') →
  I acc → rfold body acc l = Ok r → I r.
Proof.
  intros Hbody. revert acc. induction l as [|x l IH]; intros acc Hacc; cbn [rfold].
  - by intros [= <-].
  - destruct (body acc x) as [acc'|e] eqn:Hx; cbn [mbind result_bind]; [|done].
    apply IH. by eapply Hbody.
Qed.

Lemma positions_in_mono (P Q : Z → Prop) reads :
  (∀ p, P p → Q p) → positions_in P reads → positions_in Q reads.
Proof.
  intros HPQ H r obs Hr. eapply Forall_impl; [by eapply H|]. intros x. apply HPQ.
Qed.

Lemma append_to_positions_in (P : Z → Prop) reads rname p rbase :
  P p → positions_in P reads → positions_in P (append_to reads rname (p, rbase)).
Proof.
  intros Hp H r obs. unfold append_to. rewrite lookup_insert.
  destruct (decide (rname = r)) as [->|]; [|apply H].
  intros [= <-]. apply Forall_app. split; [|by repeat constructor].
  destruct (reads !! r) as [obs|] eqn:Hr; cbn; [by eapply H|constructor].
Qed.

Lemma scan_column_positions_in (P : Z → Prop) p reads col reads' :
  P p → positions_in P reads → scan_column p reads col = Ok reads' →
  positions_in P reads'.
Proof.
  intros Hp. unfold scan_column. apply rfold_inv.
  intros b x b' Hb. destruct (getitem _ _) as [rbase|]; cbn [mbind result_bind]; [|done].
  intros [= <-]. by apply append_to_positions_in.
Qed.

Lemma scan_pileup_positions_in (P : Z → Prop) p reads columns reads' :
  P p → positions_in P reads → scan_pileup p reads columns = Ok reads' →
  positions_in P reads'.
Proof.
  intros Hp. unfold scan_pileup. apply rfold_inv.
  intros b col b' Hb. destruct (decide _); [by intros [= <-]|].
  by apply scan_column_positions_in.
Qed.

Lemma collect_marker_Ok (samfile : AlignmentFile) seqid reads0 ps0 m st :
  collect_marker samfile seqid (reads0, ps0) m = Ok st →
  ∃ columns reads1,
    pileup samfile seqid = Ok columns
    ∧ scan_pileup (pos m) reads0 columns = Ok reads1
    ∧ st = (reads1, ps0 ++ [pos m]).
Proof.
  unfold collect_marker.
  destruct (pileup samfile seqid) as [columns|]; cbn [mbind result_bind]; [|done].
  destruct (scan_pileup (pos m) reads0 columns) as [reads1|] eqn:Hscan;
    cbn [mbind result_bind]; [|done].
  intros [= <-]. by exists columns, reads1.
Qed.

Lemma collect_loop_spec (samfile : AlignmentFile) seqid d reads0 ps0 reads ps :
  rfold (collect_marker samfile seqid) (reads0, ps0) d = Ok (reads, ps) →
  positions_in (λ p, p ∈ ps0) reads0 →
  ps = ps0 ++ (pos <$> d) ∧ positions_in (λ p, p ∈ ps) reads.
Proof.
  revert reads0 ps0. induction d as [|m d IH]; intros reads0 ps0; cbn [rfold].
  - intros [= <- <-] H. by rewrite app_nil_r.
  - destruct (collect_marker samfile seqid (reads0, ps0) m) as [st|] eqn:Hm;
      cbn [mbind result_bind]; [|done].
    apply collect_marker_Ok in Hm as (columns & reads1 & _ & Hscan & ->).
    intros Hrest H0. apply IH in Hrest as [-> Hin].
    + split; [|done]. cbn [fmap list_fmap]. by rewrite <- app_assoc.
    + eapply scan_pileup_positions_in; [| |exact Hscan].
      * apply elem_of_app. right. left.
      * eapply positions_in_mono; [|exact H0]. intros p Hp. apply elem_of_app. by left.
Qed.

(** After the loop over the markers, [positions] lists the positions of
    [d] in order, one slot per row, and every observation is at one of
    them. *)
Lemma collect_spec (samfile : AlignmentFile) seqid d reads positions :
  collect samfile seqid d = Ok (reads, positions) →
  positions = pos <$> d ∧ positions_in (λ p, p ∈ positions) reads.
Proof.
  intros H. apply collect_loop_spec in H; [done|].
  intros r obs Hr. by rewrite lookup_empty in Hr.
Qed.

(** ** Filling the array of a read *)

Lemma index_lookup (l : list Z) x i : index l x = Ok i → l !! i = Some x.
Proof.
  revert i. induction l as [|y l IH]; intros i; cbn [index]; [done|].
  destruct (decide (y = x)) as [->|]; [by intros [= <-]|].
  destruct (index l x) as [j|]; cbn; [|done].
  intros [= <-]. by apply IH.
Qed.

Lemma index_elem_of (l : list Z) x : x ∈ l → ∃ i, index l x = Ok i.
Proof.
  induction l as [|y l IH]; [by rewrite elem_of_nil|].
  cbn [index]. destruct (decide (y = x)) as [->|Hne]; [eauto|].
  rewrite elem_of_cons. intros [?|Hx]; [congruence|].
  destruct (IH Hx) as [i ->]. cbn. eauto.
Qed.

Lemma index_NoDup (l : list Z) x i : NoDup l → l !! i = Some x → index l x = Ok i.
Proof.
  intros Hl. revert i. induction Hl as [|y l Hy Hl IH]; intros i; [done|].
  cbn [index]. destruct i as [|i]; cbn.
  - intros [= ->]. by rewrite decide_True.
  - intros Hi. rewrite decide_False.
    + by rewrite (IH i Hi).
    + intros ->. apply Hy. by eapply list_elem_of_lookup_2.
Qed.

Lemma fill_cons positions hap p b read :
  fill positions hap ((p, b) :: read)
  = (i ← index positions p; setitem hap i b) ≫= λ hap', fill positions hap' read.
Proof. done. Qed.

Lemma setitem_Ok {A} (l : list A) i x :
  (i < length l)%nat → setitem l i x = Ok (<[i := x]> l).
Proof. intros. unfold setitem. by rewrite decide_True. Qed.

(** What the loop at lines 140-141 leaves in the array: a written slot
    holds the base of some observation of the read, any other slot is
    untouched; no [index] or assignment raises. *)
Lemma fill_spec positions read hap0 :
  length hap0 = length positions →
  Forall (λ x, x.1 ∈ positions) read →
  ∃ hap, fill positions hap0 read = Ok hap
    ∧ length hap = length hap0
    ∧ ∀ i, (slot_written positions read i → ∃ x, x ∈ read ∧ hap !! i = Some x.2)
         ∧ (¬ slot_written positions read i → hap !! i = hap0 !! i).
Proof.
  intros Hlen Hread. revert hap0 Hlen.
  induction Hread as [|[p b] read Hp _ IH]; intros hap0 Hlen.
  - exists hap0. split; [done|]. split; [done|]. intros i. split; [|done].
    intros H. by apply Exists_nil in H.
  - cbn [fst] in Hp. destruct (index_elem_of _ _ Hp) as [j Hj].
    assert (j < length hap0)%nat as Hjlt.
    { rewrite Hlen. apply index_lookup in Hj. by eapply lookup_lt_Some. }
    destruct (IH (<[j := b]> hap0)) as (hap & Hfill & Hl & Hslots);
      [by rewrite length_insert|].
    exists hap. rewrite fill_cons, Hj. cbn [mbind result_bind].
    rewrite setitem_Ok by done. cbn [mbind result_bind].
    split; [done|]. split; [by rewrite Hl, length_insert|].
    intros i. unfold slot_written. rewrite Exists_cons. cbn [fst].
    destruct (Hslots i) as [Hw Hn]. split.
    + intros Hi. destruct (decide (slot_written positions read i)) as [Hr|Hr].
      * destruct (Hw Hr) as (x & Hx & Hhap). exists x. split; [by right|done].
      * destruct Hi as [Hi|Hi]; [|done].
        exists (p, b). split; [by left|].
        rewrite (Hn Hr). rewrite Hj in Hi. injection Hi as ->.
        by apply list_lookup_insert_eq.
    + intros Hi. rewrite Hn by tauto.
      apply list_lookup_insert_ne. intros ->. tauto.
Qed.

Lemma contains_elem_of ch (l : list ascii) :
  contains ch (string_of_list_ascii l) = true ↔ ch ∈ l.
Proof.
  induction l as [|x l IH]; cbn [string_of_list_ascii contains].
  - rewrite elem_of_nil. done.
  - rewrite elem_of_cons. destruct (decide (x = ch)) as [->|]; [tauto|].
    rewrite IH. split; [tauto|]. intros [?|?]; [congruence|done].
Qed.

Lemma length_string_of_list_ascii (l : list ascii) :
  String.length (string_of_list_ascii l) = length l.
Proof. induction l as [|x l IH]; cbn; [done|]. by rewrite IH. Qed.

(** The outcome of lines 139-145 for one read whose observations are at
    marker positions and never carry the sentinel: the read gives a
    string, of one base per slot, exactly when every slot was written. *)
Lemma haplotype_spec nmarkers positions read :
  length positions = nmarkers →
  Forall (λ x, x.1 ∈ positions) read →
  Forall (λ x, x.2 ≠ "-"%char) read →
  ∃ hap, fill positions (replicate nmarkers "-"%char) read = Ok hap
    ∧ length hap = nmarkers
    ∧ ((∀ i, (i < nmarkers)%nat → slot_written positions read i) →
         haplotype nmarkers positions read = Ok (Some (string_of_list_ascii hap)))
    ∧ (∀ i, (i < nmarkers)%nat → ¬ slot_written positions read i →
         haplotype nmarkers positions read = Ok None).
Proof.
  intros Hlen Hpos Hbase.
  destruct (fill_spec positions read (replicate nmarkers "-"%char))
    as (hap & Hfill & Hl & Hslots); [by rewrite length_replicate|done|].
  rewrite length_replicate in Hl.
  exists hap. split; [done|]. split; [done|].
  unfold haplotype. rewrite Hfill. cbn [mbind result_bind]. split.
  - intros Hall.
    destruct (contains "-" (string_of_list_ascii hap)) eqn:Hc; [|done].
    apply contains_elem_of, list_elem_of_lookup in Hc as [i Hi].
    assert (i < nmarkers)%nat as Hlt by (rewrite <- Hl; by eapply lookup_lt_Some).
    destruct (Hslots i) as [Hw _]. destruct (Hw (Hall i Hlt)) as (x & Hx & Hhap).
    rewrite Forall_forall in Hbase. specialize (Hbase x Hx). congruence.
  - intros i Hlt Hi. destruct (Hslots i) as [_ Hn].
    assert (contains "-" (string_of_list_ascii hap) = true) as ->; [|done].
    apply contains_elem_of, list_elem_of_lookup. exists i.
    rewrite (Hn Hi). by apply lookup_replicate_2.
Qed.

(** With pairwise distinct marker positions the slots are written exactly
    when the positions are observed. *)
Lemma slots_written_observed positions read :
  NoDup positions →
  (∀ i, (i < length positions)%nat → slot_written positions read i)
  ↔ (∀ p, p ∈ positions → observed read p).
Proof.
  intros Hnd. unfold slot_written, observed. split.
  - intros H p Hp. apply list_elem_of_lookup in Hp as [i Hi].
    specialize (H i (lookup_lt_Some _ _ _ Hi)).
    apply Exists_exists in H as (x & Hx & Hidx). apply Exists_exists.
    exists x. split; [done|]. apply index_lookup in Hidx. congruence.
  - intros H i Hi. apply lookup_lt_is_Some in Hi as [p Hp].
    specialize (H p (list_elem_of_lookup_2 _ _ _ Hp)).
    apply Exists_exists in H as (x & Hx & <-). apply Exists_exists.
    exists x. split; [done|]. by apply index_NoDup.
Qed.

Lemma haplotype_returns nmarkers positions read :
  length positions = nmarkers →
  Forall (λ x, x.1 ∈ positions) read →
  ∃ o, haplotype nmarkers positions read = Ok o.
Proof.
  intros Hlen Hpos.
  destruct (fill_spec positions read (replicate nmarkers "-"%char))
    as (hap & Hfill & _); [by rewrite length_replicate|done|].
  unfold haplotype. rewrite Hfill. cbn [mbind result_bind].
  destruct (contains _ _); eauto.
Qed.

(** A position of the region that the read does not cover leaves its slot
    unwritten, whether or not positions repeat. *)
Lemma unobserved_slot positions read p :
  p ∈ positions → ¬ observed read p →
  ∃ i, (i < length positions)%nat ∧ ¬ slot_written positions read i.
Proof.
  intros Hp Hobs. apply list_elem_of_lookup in Hp as [i Hi].
  exists i. split; [by eapply lookup_lt_Some|].
  intros Hw. apply Hobs. unfold slot_written in Hw.
  apply Exists_exists in Hw as (x & Hx & Hidx). apply Exists_exists.
  exists x. split; [done|]. apply index_lookup in Hidx. congruence.
Qed.

(** The loop at lines 138-145 over a list of reads. *)
Lemma haplotypes_loop nmarkers positions (l : list (list (Z * ascii))) acc :
  Forall (λ read, ∃ o, haplotype nmarkers positions read = Ok o) l →
  ∃ out,
    rfold (λ haplotypes read,
             hap ← haplotype nmarkers positions read;
             Ok (match hap with
                 | Some hap => haplotypes ++ [hap]
                 | None => haplotypes
                 end))
          acc l = Ok out
    ∧ ∀ hap, hap ∈ out
             ↔ hap ∈ acc ∨ ∃ read, read ∈ l ∧ haplotype nmarkers positions read = Ok (Some hap).
Proof.
  intros Hl. revert acc. induction Hl as [|read l [o Ho] _ IH]; intros acc.
  - exists acc. split; [done|]. intros hap. split; [auto|].
    intros [?|(read & Hr & _)]; [done|]. by apply elem_of_nil in Hr.
  - cbn [rfold]. rewrite Ho. cbn [mbind result_bind].
    destruct (IH (match o with Some hap => acc ++ [hap] | None => acc end))
      as (out & Hout & Hmem).
    exists out. split; [done|]. intros hap. rewrite Hmem.
    setoid_rewrite elem_of_cons. destruct o as [hap'|].
    + rewrite elem_of_app, list_elem_of_singleton. split.
      * intros [[?| ->]|(r & ? & ?)]; eauto.
      * intros [?|(r & [-> |?] & Hr)]; eauto.
        rewrite Ho in Hr. injection Hr as ->. auto.
    + split.
      * intros [?|(r & ? & ?)]; eauto.
      * intros [?|(r & [-> |?] & Hr)]; eauto. congruence.
Qed.

Lemma haplotypes_of_spec nmarkers positions (reads : gmap string (list (Z * ascii))) :
  length positions = nmarkers →
  positions_in (λ p, p ∈ positions) reads →
  ∃ haplotypes : gset string,
    haplotypes_of nmarkers positions reads = Ok haplotypes
    ∧ ∀ hap, hap ∈ haplotypes
             ↔ ∃ rname read, reads !! rname = Some read
                             ∧ haplotype nmarkers positions read = Ok (Some hap).
Proof.
  intros Hlen Hin.
  destruct (haplotypes_loop nmarkers positions ((map_to_list reads).*2) [])
    as (out & Hout & Hmem).
  { apply Forall_forall. intros read Hread.
    apply list_elem_of_fmap in Hread as ([r read'] & -> & Hr).
    apply elem_of_map_to_list in Hr. apply haplotype_returns; [done|]. by eapply Hin. }
  exists (list_to_set out). unfold haplotypes_of. rewrite Hout. cbn [mbind result_bind].
  split; [done|]. intros hap. rewrite elem_of_list_to_set, Hmem. split.
  - intros [Hnil|(read & Hread & Hhap)]; [by apply elem_of_nil in Hnil|].
    apply list_elem_of_fmap in Hread as ([r read'] & -> & Hr).
    apply elem_of_map_to_list in Hr. eauto.
  - intros (r & read & Hr & Hhap). right. exists read. split; [|done].
    apply list_elem_of_fmap. exists (r, read). by rewrite elem_of_map_to_list.
Qed.

(** The extraction of a sample whose pileup returns: it returns, with the
    strings of its reads. *)
Lemma extract_spec (samfile : AlignmentFile) seqid d reads positions :
  collect samfile seqid d = Ok (reads, positions) →
  ∃ haplotypes : gset string,
    extract samfile seqid d = Ok haplotypes
    ∧ ∀ hap, hap ∈ haplotypes
             ↔ ∃ rname read, reads !! rname = Some read
                             ∧ haplotype (length d) positions read = Ok (Some hap).
Proof.
  intros Hc. unfold extract. rewrite Hc. cbn [mbind result_bind].
  apply collect_spec in Hc as [-> Hin].
  apply haplotypes_of_spec; [by rewrite length_fmap|done].
Qed.

(** ** Claims C2 and C7 *)

(** C2, as the code has it.  In a region whose marker positions are
    pairwise distinct, for a read of the sample whose observed bases are
    never the sentinel: the extraction returns; the read gives a
    haplotype string exactly when it has an observation at every marker
    position; that string has one character per marker and is in the
    sample's set; and a read with a slot left unwritten gives none. *)
Theorem haplotype_iff_positions_observed (samfile : AlignmentFile) (seqid : string)
    (d : list marker) (reads : gmap string (list (Z * ascii))) (positions : list Z)
    (rname : string) (read : list (Z * ascii)) :
  collect samfile seqid d = Ok (reads, positions) →
  reads !! rname = Some read →
  NoDup (pos <$> d) →
  Forall (λ x, x.2 ≠ "-"%char) read →
  ∃ haplotypes : gset string,
    extract samfile seqid d = Ok haplotypes
    ∧ ((∃ hap, haplotype (length d) positions read = Ok (Some hap))
       ↔ ∀ m, m ∈ d → observed read (pos m))
    ∧ (∀ hap, haplotype (length d) positions read = Ok (Some hap) →
         String.length hap = length d ∧ hap ∈ haplotypes)
    ∧ ((∃ i, (i < length d)%nat ∧ ¬ slot_written positions read i) →
         haplotype (length d) positions read = Ok None).
Proof.
  intros Hc Hread Hnd Hbase.
  destruct (extract_spec _ _ _ _ _ Hc) as (haplotypes & Hx & Hmem).
  apply collect_spec in Hc as [Hpos Hin].
  assert (length positions = length d) as Hlen by (by rewrite Hpos, length_fmap).
  destruct (haplotype_spec (length d) positions read Hlen (Hin _ _ Hread) Hbase)
    as (hap0 & Hfill & Hl & Hall & Hnone).
  exists haplotypes. split; [done|]. split; [split|split].
  - intros [hap Hhap] m Hm.
    destruct (decide (observed read (pos m))) as [|Hobs]; [done|].
    destruct (unobserved_slot positions read (pos m)) as (i & Hi & Hw); [|done|].
    { rewrite Hpos. apply list_elem_of_fmap. eauto. }
    rewrite (Hnone i) in Hhap by (done || lia). done.
  - intros Hobs. eexists. apply Hall. rewrite <- Hlen.
    apply slots_written_observed; [by rewrite Hpos|].
    intros p Hp. rewrite Hpos in Hp.
    apply list_elem_of_fmap in Hp as (m & -> & Hm). by apply Hobs.
  - intros hap Hhap. split; [|apply Hmem; eauto].
    unfold haplotype in Hhap. rewrite Hfill in Hhap. cbn [mbind result_bind] in Hhap.
    destruct (contains _ _); [done|]. injection Hhap as <-.
    by rewrite length_string_of_list_ascii.
  - intros (i & Hi & Hw). by apply (Hnone i).
Qed.

(** C2 fails on the code: with two rows at position 100 of [ctg1] the
    region has two slots; read [r1] has an observation at the position of
    each marker, yet its second slot keeps the sentinel, the read is
    skipped and the sample's set is empty. *)
Lemma repeated_position_drops_covering_read :
  let d := [marker_100_G; marker_100_T] in
  let read := [(100, "A"%char); (100, "A"%char)] in
  load default_options 4 2 (drop 1 matrix_repeated_position) = Ok d
  ∧ groupby (sort d) = [("ctg1", d)]
  ∧ collect sample_two_reads "ctg1" d
    = Ok ({[ "r1" := read; "r2" := [(100, "C"%char); (100, "C"%char)] ]}, [100; 100])
  ∧ Forall (λ m, observed read (pos m)) d
  ∧ Forall (λ x, x.2 ≠ "-"%char) read
  ∧ haplotype (length d) [100; 100] read = Ok None
  ∧ extract sample_two_reads "ctg1" d = Ok ∅.
Proof.
  repeat split; try (vm_compute; reflexivity).
  - repeat constructor; apply Exists_cons; left; reflexivity.
  - repeat constructor; discriminate.
Qed.

(** C7, as the code has it.  [data.sort()] and [groupby] drop no row and
    merge none; each group is a non-empty run of one contig whose
    positions do not decrease, and increase strictly when no two selected
    rows share contig and position; and the array of a read has one slot
    per row of the group, in that order. *)
Theorem marker_groups_sorted (data : list marker) (k : string) (g : list marker) :
  (k, g) ∈ groupby (sort data) →
  g ≠ []
  ∧ Forall (λ m, seqid m = k) g
  ∧ Sorted Z.le (pos <$> g)
  ∧ (NoDup ((λ m, (seqid m, pos m)) <$> data) → Sorted Z.lt (pos <$> g))
  ∧ concat ((groupby (sort data)).*2) ≡ₚ data
  ∧ ∀ (samfile : AlignmentFile) reads positions,
      collect samfile k g = Ok (reads, positions) → positions = pos <$> g.
Proof.
  intros Hg.
  pose proof (groupby_groups (sort data)) as Hgroups.
  pose proof (groupby_sorted (sort data) (sort_sorted data)) as Hsorted.
  rewrite Forall_forall in Hgroups, Hsorted.
  destruct (Hgroups _ Hg) as [Hne Hk]. specialize (Hsorted _ Hg). cbn in Hne, Hk, Hsorted.
  split; [done|]. split; [done|]. split; [done|]. split; [|split].
  - intros Hnd. apply Sorted_le_NoDup_lt; [done|].
    apply (NoDup_fmap_1 (pair k)).
    assert ((pair k <$> (pos <$> g)) = ((λ m, (seqid m, pos m)) <$> g)) as ->.
    { rewrite <- list_fmap_compose. apply Forall_fmap_ext_1.
      eapply Forall_impl; [exact Hk|]. intros m <-. done. }
    apply (NoDup_fmap_concat_elem _ ((groupby (sort data)).*2)).
    + rewrite groupby_concat. by rewrite sort_perm.
    + apply list_elem_of_fmap. by exists (k, g).
  - rewrite groupby_concat. apply sort_perm.
  - intros samfile reads positions Hc. by apply collect_spec in Hc as [-> _].
Qed.

(** C7 fails on the code: the two rows at position 100 of [ctg1] are both
    selected and both kept, in one group whose positions are 100, 100. *)
Lemma repeated_position_kept :
  let d := [marker_100_G; marker_100_T] in
  load default_options 4 2 (drop 1 matrix_repeated_position) = Ok d
  ∧ groupby (sort d) = [("ctg1", d)]
  ∧ pos <$> d = [100; 100]
  ∧ ¬ Sorted Z.lt (pos <$> d).
Proof.
  repeat split; try (vm_compute; reflexivity).
  intros H. apply Sorted_inv in H as [_ H]. apply HdRel_inv in H. cbn in H. lia.
Qed.

(** ** The theorems on the inputs of the examples *)


Lemma hetratio_denominator_positive_witness :
  (missing default_options <= 1)%Q
  ∧ select default_options 4 (round (missing default_options * inject_Z 4))
           "ctg1 100 A G 0 0 0 0" ≠ Raise ZeroDivisionError.
Proof.
  assert (missing default_options <= 1)%Q as Hf by (vm_compute; discriminate).
  split; [exact Hf|].
  exact (proj2 (hetratio_denominator_positive default_options
                  ["seqid"; "pos"; "ref"; "alt"; "s1"; "s2"; "s3"; "s4"]
                  "ctg1 100 A G 0 0 0 0" Hf)).
Defined.

Lemma haplotype_iff_positions_observed_witness :
  ∃ haplotypes : gset string,
    extract sample_two_reads "ctg1" [marker_100; marker_200] = Ok haplotypes
    ∧ "AT" ∈ haplotypes.
Proof.
  destruct (haplotype_iff_positions_observed sample_two_reads "ctg1"
              [marker_100; marker_200]
              {[ "r1" := [(100, "A"%char); (200, "T"%char)]; "r2" := [(100, "C"%char)] ]}
              [100; 200] "r1" [(100, "A"%char); (200, "T"%char)])
    as (haplotypes & Hx & _ & Hhap & _).
  - vm_compute. reflexivity.
  - vm_compute. reflexivity.
  - repeat constructor; vm_compute; intros H; inversion H; subst;
      match goal with H : _ ∈ _ |- _ => inversion H end.
  - repeat constructor; discriminate.
  - exists haplotypes. split; [exact Hx|].
    apply (Hhap "AT"). vm_compute. reflexivity.
Defined.

Lemma solve_one_record_per_pair_witness :
  ∃ out : list record,
    solve map_to_list (HaplotypeResolver_init [{["AT"; "GC"]}; {["AT"]}; {["GC"]}]) []
    = ([] ++ out, Ok tt)
    ∧ length (filter (λ r, record_of_pair "AT" "GC" r = true) out) = 1%nat.
Proof.
  destruct (solve_one_record_per_pair map_to_list (λ d, reflexivity (map_to_list d))
              [{["AT"; "GC"]}; {["AT"]}; {["GC"]}] [])
    as (out & Hout & _ & Hone).
  exists out. split; [exact Hout|].
  apply Hone; [discriminate|vm_compute; eauto..].
Defined.

Lemma cooccurrence_le_min_frequency_witness :
  cooccurrence (HaplotypeResolver_init [{["AT"; "GC"]}; {["AT"]}; {["GC"]}]) "AT" "GC"
  ≤ Z.min (get (counter (HaplotypeResolver_init [{["AT"; "GC"]}; {["AT"]}; {["GC"]}])) "AT" 0)
          (get (counter (HaplotypeResolver_init [{["AT"; "GC"]}; {["AT"]}; {["GC"]}])) "GC" 0).
Proof.
  exact (proj2 (cooccurrence_le_min_frequency map_to_list
                  (λ d, reflexivity (map_to_list d))
                  [{["AT"; "GC"]}; {["AT"]}; {["GC"]}] []) "AT" "GC").
Defined.

Lemma scenario_three_samples_witness :
  counter (HaplotypeResolver_init [{["AT"; "GC"]}; {["AT"]}; {["GC"]}])
  = {["AT" := 2; "GC" := 2]}.
Proof.
  exact (proj1 (scenario_three_samples map_to_list (λ d, reflexivity (map_to_list d)) [])).
Defined.

Lemma empty_contig_is_reported_witness :
  resolve_contig map_to_list [sample_two_reads] "ctg1" [marker_100_G; marker_100_T] []
  = ([] ++ [Summary "ctg1" ∅], Ok tt).
Proof.
  destruct (empty_contig_is_reported map_to_list (λ d, reflexivity (map_to_list d))
              [sample_two_reads] "ctg1" [marker_100_G; marker_100_T] [] [])
    as (_ & _ & Hr & _).
  - repeat constructor.
  - exact Hr.
Defined.

Lemma lookup_failure_propagates_witness :
  resolve_contig map_to_list [sample_two_reads; sample_unknown_contig; sample_two_reads]
                 "ctg1" [marker_100; marker_200] []
  = ([], Raise ValueError).
Proof.
  destruct (lookup_failure_propagates map_to_list [sample_two_reads] [sample_two_reads]
              sample_unknown_contig "ctg1" [marker_100; marker_200] [{["AT"]}] [] []
              ValueError)
    as (_ & Hr & _).
  - discriminate.
  - repeat constructor.
  - reflexivity.
  - exact Hr.
Defined.

Lemma marker_groups_sorted_witness :
  Sorted Z.lt (pos <$> [marker_100; marker_200]).
Proof.
  destruct (marker_groups_sorted [marker_200; marker_100] "ctg1" [marker_100; marker_200])
    as (_ & _ & _ & Hlt & _).
  - apply (list_elem_of_here ("ctg1", [marker_100; marker_200]) []).
  - apply Hlt. repeat constructor; vm_compute; intros H; inversion H; subst;
      match goal with H : _ ∈ _ |- _ => inversion H end.
Defined.

(** ** Further properties of [HaplotypeResolver] *)

Lemma length_pairs {A} (l : list A) :
  (2 * length (pairs l) = length l * (length l - 1))%nat.
Proof.
  induction l as [|x l IH]; [done|].
  cbn [pairs]. rewrite length_app, length_fmap. cbn [length]. nia.
Qed.

Lemma samples_with_le_length a hs : samples_with a hs ≤ Z.of_nat (length hs).
Proof.
  unfold samples_with.
  pose proof (length_filter (λ haplotypes : gset string, a ∈ haplotypes) hs). lia.
Qed.

(** [solve] writes n(n-1)/2 records, n the number of keys of the counter,
    whatever was written before and in whatever order the dict lists its
    keys. *)
Theorem solve_number_of_records (items : gmap string Z → list (string * Z))
    (hs : list (gset string)) (fw : list record) :
  (∀ d, items d ≡ₚ map_to_list d) →
  let self := HaplotypeResolver_init hs in
  ∃ out : list record,
    solve items self fw = (fw ++ out, Ok tt)
    ∧ (2 * length out = size (counter self) * (size (counter self) - 1))%nat.
Proof.
  intros Hperm self. eexists. split; [apply solve_records|].
  rewrite length_fmap, length_pairs, length_fmap, Hperm.
  by rewrite length_map_to_list.
Qed.

(** The keys of the counter are the strings of the samples' sets; each
    count is at least 1 and at most the number of samples [nind]. *)
Theorem counter_keys_and_bounds (hs : list (gset string)) (a : string) :
  let self := HaplotypeResolver_init hs in
  (a ∈ dom (counter self) ↔ a ∈ ⋃ hs)
  ∧ ∀ n, counter self !! a = Some n → 1 ≤ n ≤ nind self.
Proof.
  intros self. split.
  - rewrite elem_of_dom, elem_of_union_list.
    unfold self. rewrite counter_lookup, <- samples_with_pos.
    destruct (decide (0 < samples_with a hs)); [by split; eauto|].
    split; [by intros [? ?]|done].
  - intros n Hn. unfold self in Hn. rewrite counter_lookup in Hn.
    destruct (decide (0 < samples_with a hs)); [|done].
    injection Hn as <-. pose proof (samples_with_le_length a hs). cbn. lia.
Qed.

(** The co-occurrence count does not depend on the order of the pair, and
    of a string with itself it is the string's population count. *)
Theorem cooccurrence_symmetric (hs : list (gset string)) (a b : string) :
  let self := HaplotypeResolver_init hs in
  cooccurrence self a b = cooccurrence self b a
  ∧ cooccurrence self a a = get (counter self) a 0.
Proof.
  intros self. unfold self. rewrite !cooccurrence_samples, population_count_get.
  unfold samples_with_both, samples_with. split; do 2 f_equal.
  - apply list_filter_iff. intros s. tauto.
  - apply list_filter_iff. intros s. tauto.
Qed.

Lemma solve_number_of_records_witness :
  ∃ out : list record,
    solve map_to_list (HaplotypeResolver_init [{["AT"; "GC"]}; {["AT"; "TT"]}]) []
    = ([] ++ out, Ok tt)
    ∧ (2 * length out = 3 * (3 - 1))%nat.
Proof.
  exact (solve_number_of_records map_to_list [{["AT"; "GC"]}; {["AT"; "TT"]}] []
           (λ d, reflexivity (map_to_list d))).
Defined.

(** ** Further properties of the marker filter *)

Lemma round_half (n : Z) : 0 ≤ n → round ((1 # 2) * inject_Z n) = (n + 1) / 2.
Proof.
  intros Hn. unfold round.
  assert (Qle_bool 0 ((1 # 2) * inject_Z n) = true) as ->.
  { apply Qle_bool_iff. unfold Qle. cbn. lia. }
  unfold Qfloor, Qplus, Qmult, inject_Z. cbn [Qnum Qden].
  change (Z.pos (2 * 1 * 2)) with 4.
  replace (1 * n * 2 + 1 * Z.pos (2 * 1)) with ((n + 1) * 2) by lia.
  change 4 with (2 * 2). rewrite Z.div_mul_cancel_r by lia. done.
Qed.

Lemma half_lt_ratio (a b : Z) :
  0 < b → ((1 # 2) < inject_Z a / inject_Z b)%Q ↔ b < 2 * a.
Proof.
  intros Hb.
  assert (0 < inject_Z b)%Q as Hq by (unfold Qlt; cbn; lia).
  split.
  - intros Hlt. destruct (decide (b < 2 * a)) as [|Hge]; [done|].
    assert (inject_Z a / inject_Z b <= 1 # 2)%Q; [|lra].
    apply Qle_shift_div_r; [done|]. unfold Qle. cbn. lia.
  - intros Hlt. apply Qlt_shift_div_l; [done|]. unfold Qlt. cbn. lia.
Qed.

(** With the default options (0.5 and 0.5) and a header of [4 + ngenotypes]
    columns, a data row with a numeric position is kept exactly when fewer
    than half of the individuals have code ['0'] and more than half of the
    others have code ['3']. *)
Theorem default_filter_by_halves (ngenotypes : Z) (row : string)
    (seqid pos ref alt : string) (genotypes : list string) (p : Z) :
  getitem row (Some 0) ≠ Ok "#"%char →
  split row = seqid :: pos :: ref :: alt :: genotypes →
  0 ≤ ngenotypes →
  int pos = Ok p →
  let nmissing := round (missing default_options * inject_Z ngenotypes) in
  let c0 := occurrences "0" genotypes in
  let c3 := occurrences "3" genotypes in
  (∃ m, select default_options ngenotypes nmissing row = Ok (Some m))
  ↔ 2 * c0 < ngenotypes ∧ ngenotypes - c0 < 2 * c3.
Proof.
  intros Hrow Hsplit Hn Hpos nmissing c0 c3.
  assert (∃ ch, getitem row (Some 0) = Ok ch ∧ ch ≠ "#"%char) as (ch & Hch & Hne).
  { destruct row as [|ch row]; [by rewrite split_empty in Hsplit|].
    rewrite getitem_first in Hrow |- *. exists ch. split; [done|congruence]. }
  rewrite (select_data_row _ ngenotypes nmissing row ch seqid pos ref alt genotypes)
    by done.
  fold c0 c3. rewrite Hpos.
  assert (nmissing = (ngenotypes + 1) / 2) as Hnm by (by apply round_half).
  assert (0 ≤ c0) as H0 by apply occurrences_nonneg.
  assert (c0 < nmissing ↔ 2 * c0 < ngenotypes) as Hmiss.
  { rewrite Hnm.
    pose proof (Z.div_mod (ngenotypes + 1) 2 ltac:(lia)).
    pose proof (Z.mod_pos_bound (ngenotypes + 1) 2 ltac:(lia)). lia. }
  destruct (decide (c0 >= nmissing)) as [Hge|Hlt].
  { split; [by intros [m ?]|]. intros [? _]. lia. }
  unfold truediv. rewrite decide_False by lia. cbn [mbind result_bind].
  pose proof (half_lt_ratio c3 (ngenotypes - c0) ltac:(lia)) as Hratio.
  destruct (Qle_bool _ (het default_options)) eqn:Hhet; cbn [mbind result_bind].
  - apply Qle_bool_iff in Hhet. change (het default_options) with (1 # 2)%Q in Hhet.
    split; [by intros [m ?]|]. intros [_ Hc3]. apply Hratio in Hc3. lra.
  - split; [|eauto]. intros _. split; [lia|]. apply Hratio.
    apply Qnot_le_lt. intros Hle. apply Qle_bool_iff in Hle.
    change (het default_options) with (1 # 2)%Q in Hhet. congruence.
Qed.

Lemma int_raises_ValueError s e : int s = Raise e → e = ValueError.
Proof. unfold int. repeat case_match; congruence. Qed.

(** Rows that are not well formed.  A blank line (a newline alone) and any
    other line that is not a comment and has fewer than four columns raise
    [ValueError] at the unpacking; with the default thresholds, a row whose
    position is not a number is skipped without an error when it fails
    either test, and raises [ValueError] only when it passes both. *)
Theorem malformed_row (opts : options) (ngenotypes nmissing : Z) (row : string) :
  select opts ngenotypes nmissing (String "010"%char EmptyString) = Raise ValueError
  ∧ (getitem row (Some 0) ≠ Ok "#"%char → row ≠ EmptyString →
       (length (split row) < 4)%nat →
       select opts ngenotypes nmissing row = Raise ValueError)
  ∧ ∀ seqid pos ref alt genotypes e,
      getitem row (Some 0) ≠ Ok "#"%char →
      split row = seqid :: pos :: ref :: alt :: genotypes →
      int pos = Raise e →
      let c0 := occurrences "0" genotypes in
      let c3 := occurrences "3" genotypes in
      (c0 >= nmissing → select default_options ngenotypes nmissing row = Ok None)
      ∧ ∀ r, c0 < nmissing → truediv c3 (ngenotypes - c0) = Ok r →
             ((r <= het default_options)%Q →
                select default_options ngenotypes nmissing row = Ok None)
             ∧ ((het default_options < r)%Q →
                  select default_options ngenotypes nmissing row = Raise ValueError).
Proof.
  split; [done|]. split.
  - intros Hrow Hne Hlen. destruct row as [|ch row]; [done|].
    rewrite getitem_first in Hrow. unfold select. rewrite getitem_first.
    cbn [mbind result_bind]. rewrite decide_False by congruence.
    destruct (split (String ch row)) as [|? [|? [|? [|? ?]]]]; cbn in Hlen |- *;
      try done; lia.
  - intros seqid pos ref alt genotypes e Hrow Hsplit Hint c0 c3.
    assert (∃ ch, getitem row (Some 0) = Ok ch ∧ ch ≠ "#"%char) as (ch & Hch & Hne).
    { destruct row as [|ch row]; [by rewrite split_empty in Hsplit|].
      rewrite getitem_first in Hrow |- *. exists ch. split; [done|congruence]. }
    rewrite (select_data_row _ ngenotypes nmissing row ch seqid pos ref alt genotypes)
      by done.
    fold c0 c3. rewrite Hint. apply int_raises_ValueError in Hint as ->.
    split.
    + intros Hge. by rewrite decide_True.
    + intros r Hlt Hr. rewrite decide_False by lia. rewrite Hr.
      cbn [mbind result_bind]. split.
      * intros Hle. apply Qle_bool_iff in Hle. by rewrite Hle.
      * intros Hgt. destruct (Qle_bool r (het default_options)) eqn:Hb; [|done].
        apply Qle_bool_iff in Hb. lra.
Qed.

Lemma default_filter_by_halves_witness :
  ∃ m, select default_options 4 (round (missing default_options * inject_Z 4))
              "ctg1 100 A G 3 3 0 1" = Ok (Some m).
Proof.
  apply (default_filter_by_halves 4 "ctg1 100 A G 3 3 0 1"
           "ctg1" "100" "A" "G" ["3"; "3"; "0"; "1"] 100).
  - vm_compute. discriminate.
  - reflexivity.
  - lia.
  - reflexivity.
  - vm_compute. split; reflexivity.
Defined.

(** ** Further properties of the extraction *)

Lemma index_first (l : list Z) x i j :
  index l x = Ok j → (i < j)%nat → l !! i ≠ Some x.
Proof.
  revert i j. induction l as [|y l IH]; intros i j; cbn [index]; [done|].
  destruct (decide (y = x)) as [->|Hne]; [intros [= <-]; lia|].
  destruct (index l x) as [k|] eqn:Hk; cbn; [|done].
  intros [= <-] Hi. destruct i as [|i]; cbn; [congruence|].
  apply (IH i k); [done|lia].
Qed.

Lemma not_NoDup_lookup (l : list Z) :
  ¬ NoDup l → ∃ i j p, (i < j)%nat ∧ l !! i = Some p ∧ l !! j = Some p.
Proof.
  induction l as [|x l IH]; intros Hnd; [destruct Hnd; constructor|].
  destruct (decide (x ∈ l)) as [Hx|Hx].
  - apply list_elem_of_lookup in Hx as [j Hj]. exists O, (S j), x.
    split; [lia|]. done.
  - destruct IH as (i & j & p & Hij & Hi & Hj).
    + intros Hl. apply Hnd. by constructor.
    + exists (S i), (S j), p. split; [lia|]. done.
Qed.

Lemma fill_length positions hap0 read hap :
  fill positions hap0 read = Ok hap → length hap = length hap0.
Proof.
  unfold fill. apply (rfold_inv (λ h, length h = length hap0)); [|done].
  intros h [p b] h' Hh. destruct (index positions p) as [i|]; cbn; [|done].
  unfold setitem. destruct (decide _); [|done]. intros [= <-].
  by rewrite length_insert.
Qed.

(** A slot that no observation of the read is written to keeps what it
    held. *)
Lemma fill_untouched positions hap0 read hap i :
  fill positions hap0 read = Ok hap →
  Forall (λ x, index positions x.1 ≠ Ok i) read →
  hap !! i = hap0 !! i.
Proof.
  intros Hfill Hread. revert hap0 Hfill.
  induction Hread as [|[p b] read Hp _ IH]; intros hap0; [by intros [= <-]|].
  rewrite fill_cons. destruct (index positions p) as [j|] eqn:Hj; cbn; [|done].
  unfold setitem. destruct (decide _); [|done]. cbn.
  intros Hfill. rewrite (IH _ Hfill). apply list_lookup_insert_ne.
  intros ->. by apply Hp.
Qed.

Lemma fill_app positions hap0 read1 read2 :
  fill positions hap0 (read1 ++ read2)
  = fill positions hap0 read1 ≫= λ hap, fill positions hap read2.
Proof.
  revert hap0. induction read1 as [|[p b] read1 IH]; intros hap0; [done|].
  cbn [app]. rewrite !fill_cons.
  destruct (index positions p) as [i|]; cbn; [|done].
  destruct (setitem hap0 i b); cbn; [apply IH|done].
Qed.

Lemma haplotype_Some nmarkers positions read hap :
  haplotype nmarkers positions read = Ok (Some hap) →
  ∃ l, fill positions (replicate nmarkers "-"%char) read = Ok l
       ∧ hap = string_of_list_ascii l
       ∧ contains "-" hap = false.
Proof.
  unfold haplotype.
  destruct (fill _ _ _) as [l|]; cbn [mbind result_bind]; [|done].
  destruct (contains _ _) eqn:Hc; [done|]. intros [= <-]. eauto.
Qed.

(** A read with a slot that none of its observations is written to gives
    no haplotype string. *)
Lemma haplotype_unwritten nmarkers positions read i o :
  haplotype nmarkers positions read = Ok o →
  (i < nmarkers)%nat →
  Forall (λ x, index positions x.1 ≠ Ok i) read →
  o = None.
Proof.
  intros Ho Hi Hread. destruct o as [hap|]; [|done].
  apply haplotype_Some in Ho as (l & Hfill & -> & Hc).
  assert (contains "-" (string_of_list_ascii l) = true) as Hin; [|congruence].
  apply contains_elem_of, list_elem_of_lookup. exists i.
  rewrite (fill_untouched _ _ _ _ i Hfill Hread). by apply lookup_replicate_2.
Qed.

(** Every string of a sample's set has one character per marker of the
    region and does not contain the sentinel. *)
Theorem haplotypes_are_complete (samfile : AlignmentFile) (seqid : string)
    (d : list marker) (haplotypes : gset string) (hap : string) :
  extract samfile seqid d = Ok haplotypes →
  hap ∈ haplotypes →
  String.length hap = length d ∧ contains "-" hap = false.
Proof.
  intros Hx Hhap.
  destruct (collect samfile seqid d) as [[reads positions]|] eqn:Hc;
    [|unfold extract in Hx; by rewrite Hc in Hx].
  destruct (extract_spec _ _ _ _ _ Hc) as (haplotypes' & Hx' & Hmem).
  rewrite Hx in Hx'. injection Hx' as <-.
  destruct (proj1 (Hmem hap) Hhap) as (rname & read & _ & Hread).
  apply haplotype_Some in Hread as (l & Hfill & -> & Hcont).
  split; [|done]. apply fill_length in Hfill.
  by rewrite length_string_of_list_ascii, Hfill, length_replicate.
Qed.

(** When two markers of the region have the same position, no read of the
    sample gives a haplotype string: whenever the pileup returns, the
    sample's set is empty. *)
Theorem repeated_position_empties_set (samfile : AlignmentFile) (seqid : string)
    (d : list marker) (reads : gmap string (list (Z * ascii))) (positions : list Z) :
  collect samfile seqid d = Ok (reads, positions) →
  ¬ NoDup (pos <$> d) →
  extract samfile seqid d = Ok ∅.
Proof.
  intros Hc Hnd.
  destruct (extract_spec _ _ _ _ _ Hc) as (haplotypes & Hx & Hmem).
  apply collect_spec in Hc as [Hpos _].
  rewrite Hx. f_equal. apply elem_of_equiv_empty_L. intros hap Hhap.
  destruct (proj1 (Hmem hap) Hhap) as (rname & read & _ & Hread).
  rewrite <- Hpos in Hnd.
  apply not_NoDup_lookup in Hnd as (i & j & p & Hij & Hi & Hj).
  assert (j < length d)%nat as Hjlt.
  { apply lookup_lt_Some in Hj. by rewrite Hpos, length_fmap in Hj. }
  assert (Some hap = None) as Habs; [|done].
  apply (haplotype_unwritten _ _ _ j _ Hread Hjlt).
  apply Forall_forall. intros x _ Hidx.
  pose proof (index_lookup _ _ _ Hidx) as Hjx.
  apply (index_first _ _ i) in Hidx; [|done]. congruence.
Qed.

(** When a read is observed more than once at a marker position, the base
    of the last observation is the one kept in the slot. *)
Theorem last_observation_wins (positions : list Z) (hap0 hap : list ascii)
    (before after : list (Z * ascii)) (p : Z) (b : ascii) (i : nat) :
  fill positions hap0 (before ++ (p, b) :: after) = Ok hap →
  index positions p = Ok i →
  Forall (λ x, x.1 ≠ p) after →
  hap !! i = Some b.
Proof.
  intros Hfill Hi Hafter. rewrite fill_app in Hfill.
  destruct (fill positions hap0 before) as [hap1|];
    cbn [mbind result_bind] in Hfill; [|done].
  rewrite fill_cons, Hi in Hfill. cbn [mbind result_bind] in Hfill.
  unfold setitem in Hfill. destruct (decide (i < length hap1)%nat); [|done].
  cbn [mbind result_bind] in Hfill. rewrite (fill_untouched _ _ _ _ i Hfill).
  - by apply list_lookup_insert_eq.
  - eapply Forall_impl; [exact Hafter|]. intros x Hx Hidx. apply Hx.
    apply index_lookup in Hidx, Hi. congruence.
Qed.

Lemma haplotypes_are_complete_witness :
  String.length "AT" = length [marker_100; marker_200] ∧ contains "-" "AT" = false.
Proof.
  apply (haplotypes_are_complete sample_two_reads "ctg1" [marker_100; marker_200] {["AT"]}).
  - vm_compute. reflexivity.
  - apply elem_of_singleton. reflexivity.
Defined.

Lemma repeated_position_empties_set_witness :
  extract sample_two_reads "ctg1" [marker_100_G; marker_100_T] = Ok ∅.
Proof.
  apply (repeated_position_empties_set sample_two_reads "ctg1" [marker_100_G; marker_100_T]
           {[ "r1" := [(100, "A"%char); (100, "A"%char)];
              "r2" := [(100, "C"%char); (100, "C"%char)] ]} [100; 100]).
  - vm_compute. reflexivity.
  - intros H. apply NoDup_cons in H as [H _]. apply H. left.
Defined.

Lemma last_observation_wins_witness :
  [ "G"%char; "T"%char ] !! O = Some "G"%char.
Proof.
  apply (last_observation_wins [100; 200] ["-"%char; "-"%char] ["G"%char; "T"%char]
           [(100, "A"%char)] [(200, "T"%char)] 100 "G"%char O).
  - vm_compute. reflexivity.
  - reflexivity.
  - repeat constructor. discriminate.
Defined.

(** ** Reads with a deletion at a marker *)

Lemma string_get_lt (s : string) (n : nat) :
  (n < String.length s)%nat → ∃ ch, String.get n s = Some ch.
Proof.
  revert n. induction s as [|ch s IH]; intros n; cbn; [lia|].
  destruct n as [|n]; [eauto|]. intros Hn. apply IH. lia.
Qed.

Lemma getitem_in_range (s : string) (q : Z) :
  0 ≤ q < Z.of_nat (String.length s) → ∃ ch, getitem s (Some q) = Ok ch.
Proof.
  intros Hq. unfold getitem.
  destruct (Z.ltb_spec q 0); [lia|].
  destruct (Z.leb_spec 0 q); [|lia].
  destruct (Z.ltb_spec q (Z.of_nat (String.length s))); [|lia]. cbn.
  destruct (string_get_lt s (Z.to_nat q)) as [ch ->]; [lia|]. eauto.
Qed.

Lemma scan_column_deletion p reads col :
  Forall in_range (pileups col) →
  (Exists (λ r, query_position r = None) (pileups col) →
     scan_column p reads col = Raise TypeError)
  ∧ (¬ Exists (λ r, query_position r = None) (pileups col) →
     ∃ reads', scan_column p reads col = Ok reads').
Proof.
  unfold scan_column. generalize (pileups col). intros l Hl. revert reads.
  induction Hl as [|r l Hr _ IH]; intros reads.
  - split; [by intros H%Exists_nil|]. eauto.
  - cbn [rfold]. rewrite Exists_cons. unfold in_range in Hr.
    destruct (query_position r) as [q|] eqn:Hq.
    + destruct (getitem_in_range _ _ Hr) as [ch ->]. cbn [mbind result_bind].
      destruct (IH (append_to reads (query_name (alignment r)) (p, ch))) as [IH1 IH2].
      split; [intros [?|?]; [done|auto]|]. intros Hn. apply IH2. tauto.
    + cbn. split; [done|]. intros Hn. destruct Hn. by left.
Qed.

Lemma scan_pileup_deletion p reads columns :
  Forall (λ col, Forall in_range (pileups col)) columns →
  (Exists (deletion_at p) columns → scan_pileup p reads columns = Raise TypeError)
  ∧ (¬ Exists (deletion_at p) columns → ∃ reads', scan_pileup p reads columns = Ok reads').
Proof.
  unfold scan_pileup. intros Hcols. revert reads.
  induction Hcols as [|col columns Hcol _ IH]; intros reads.
  - split; [by intros H%Exists_nil|]. eauto.
  - cbn [rfold]. rewrite Exists_cons. unfold deletion_at at 1 3.
    destruct (decide (reference_pos col ≠ p - 1)) as [Hne|Heq].
    + cbn [mbind result_bind]. destruct (IH reads) as [IH1 IH2].
      split; [intros [[? _]|?]; [done|auto]|]. intros Hn. apply IH2. tauto.
    + destruct (scan_column_deletion p reads col Hcol) as [Hdel Hok].
      destruct (decide (Exists (λ r, query_position r = None) (pileups col)))
        as [Hex|Hex].
      * rewrite (Hdel Hex). cbn. split; [done|]. intros Hn. destruct Hn. left.
        split; [|done]. by destruct (decide (reference_pos col = p - 1)).
      * destruct (Hok Hex) as [reads' ->]. cbn [mbind result_bind].
        destruct (IH reads') as [IH1 IH2].
        split; [intros [[_ ?]|?]; [done|auto]|]. intros Hn. apply IH2. tauto.
Qed.

Lemma collect_marker_raise (samfile : AlignmentFile) seqid reads positions m columns e :
  pileup samfile seqid = Ok columns →
  scan_pileup (pos m) reads columns = Raise e →
  collect_marker samfile seqid (reads, positions) m = Raise e.
Proof. intros Hp Hs. unfold collect_marker. by rewrite Hp; cbn; rewrite Hs. Qed.

Lemma collect_marker_step (samfile : AlignmentFile) seqid reads positions m columns reads' :
  pileup samfile seqid = Ok columns →
  scan_pileup (pos m) reads columns = Ok reads' →
  collect_marker samfile seqid (reads, positions) m = Ok (reads', positions ++ [pos m]).
Proof. intros Hp Hs. unfold collect_marker. by rewrite Hp; cbn; rewrite Hs. Qed.

(** A read without a position in its sequence (a deletion or a skip) in a
    column at a marker's position makes the extraction of the sample raise
    [TypeError], the other reads being well formed. *)
Theorem deletion_raises_TypeError (samfile : AlignmentFile) (seqid : string)
    (d : list marker) (columns : list PileupColumn) :
  pileup samfile seqid = Ok columns →
  Forall (λ col, Forall in_range (pileups col)) columns →
  Exists (λ m, Exists (deletion_at (pos m)) columns) d →
  extract samfile seqid d = Raise TypeError.
Proof.
  intros Hp Hcols Hd. unfold extract, collect.
  assert (∀ st, rfold (collect_marker samfile seqid) st d = Raise TypeError) as ->;
    [|done].
  induction Hd as [m d Hm|m d _ IH]; intros [reads positions]; cbn [rfold].
  - destruct (scan_pileup_deletion (pos m) reads columns Hcols) as [Hdel _].
    by rewrite (collect_marker_raise _ _ _ _ _ columns TypeError) by auto.
  - destruct (scan_pileup_deletion (pos m) reads columns Hcols) as [Hdel Hok].
    destruct (decide (Exists (deletion_at (pos m)) columns)) as [Hex|Hex].
    + by rewrite (collect_marker_raise _ _ _ _ _ columns TypeError) by auto.
    + destruct (Hok Hex) as [reads' Hr].
      rewrite (collect_marker_step _ _ _ _ _ columns reads') by done.
      cbn [mbind result_bind]. apply IH.
Qed.

Lemma deletion_raises_TypeError_witness :
  extract sample_with_deletion "ctg1" [marker_100; marker_200] = Raise TypeError.
Proof.
  eapply (deletion_raises_TypeError sample_with_deletion "ctg1" [marker_100; marker_200]).
  - reflexivity.
  - repeat constructor; cbn; lia.
  - left. left. split; [reflexivity|]. right. left. reflexivity.
Defined.

(** ** The contigs of a run *)

#[global] Instance string_lt_trans : Transitive string_lt.
Proof.
  intros a b c. unfold string_lt.
  change String.compare with OrderedTypeEx.String_as_OT.cmp.
  rewrite !OrderedTypeEx.String_as_OT.cmp_lt.
  apply OrderedTypeEx.String_as_OT.lt_trans.
Qed.

Lemma string_lt_irrefl a : ¬ string_lt a a.
Proof. unfold string_lt. by rewrite string_compare_refl. Qed.

Lemma groupby_keys_sorted data :
  Sorted key_le data → Sorted string_lt (groupby data).*1.
Proof.
  induction 1 as [|x data Hdata IH Hx]; [constructor|]. cbn [groupby].
  destruct (groupby data) as [|[k g] groups] eqn:Hg; [repeat constructor|].
  destruct (decide (seqid x = k)) as [Hk|Hk]; [done|].
  cbn [fmap list_fmap fst] in *. constructor; [done|]. constructor.
  destruct data as [|y data]; [done|].
  apply groupby_head in Hg as [-> _]. apply HdRel_inv in Hx.
  destruct Hx as [Hlt|[Heq _]]; [done|congruence].
Qed.

Lemma Sorted_string_lt_NoDup (l : list string) : Sorted string_lt l → NoDup l.
Proof.
  intros Hl. apply Sorted_StronglySorted in Hl; [|apply _].
  induction Hl as [|x l _ IH Hx]; constructor; [|done].
  intros Hin. rewrite Forall_forall in Hx. by apply (string_lt_irrefl x), Hx.
Qed.

Lemma groupby_keys_elem_of data k :
  k ∈ (groupby data).*1 ↔ ∃ m, m ∈ data ∧ seqid m = k.
Proof.
  induction data as [|x data IH].
  - cbn. rewrite elem_of_nil. split; [done|]. intros (m & Hm & _).
    by apply elem_of_nil in Hm.
  - setoid_rewrite elem_of_cons. cbn [groupby].
    destruct (groupby data) as [|[k' g] groups] eqn:Hg.
    + apply groupby_nil in Hg as ->. cbn. rewrite list_elem_of_singleton. split.
      * intros ->. eauto.
      * intros (m & [->|Hm] & <-); [done|]. by apply elem_of_nil in Hm.
    + cbn [fmap list_fmap fst] in IH.
      destruct (decide (seqid x = k')) as [Hk|Hk]; cbn [fmap list_fmap fst].
      * rewrite IH. split.
        -- intros (m & Hm & <-). eauto.
        -- intros (m & [->|Hm] & <-); [|eauto].
           rewrite <- IH, Hk. left.
      * rewrite elem_of_cons, IH. split.
        -- intros [->|(m & Hm & <-)]; eauto.
        -- intros (m & [->|Hm] & <-); eauto.
Qed.

Lemma contigs_of_app out1 out2 :
  contigs_of (out1 ++ out2) = contigs_of out1 ++ contigs_of out2.
Proof. apply omap_app. Qed.

Lemma contigs_of_pair_records self (l : list (string * string)) :
  contigs_of (pair_record self <$> l) = [].
Proof. induction l as [|p l IH]; [done|]. cbn. exact IH. Qed.

(** The loop over the contigs when every extraction returns: it returns,
    and the summary records written are those of the groups, in order. *)
Lemma contigs_loop (items : gmap string Z → list (string * Z))
    (samfiles : list AlignmentFile) (groups : list (string * list marker)) fw :
  Forall (λ kg, Forall (λ samfile, ∃ h, extract samfile kg.1 kg.2 = Ok h) samfiles)
         groups →
  ∃ out,
    for_each groups (λ '(seqid, d), resolve_contig items samfiles seqid d) fw
    = (fw ++ out, Ok tt)
    ∧ contigs_of out = groups.*1.
Proof.
  intros Hgroups. revert fw.
  induction Hgroups as [|[k g] groups Hg _ IH]; intros fw.
  - exists []. by rewrite app_nil_r.
  - cbn [fst snd] in Hg.
    apply Forall_exists_Forall2_l in Hg as [hs Hhs].
    pose proof (resolve_contig_ok items samfiles k g hs fw Hhs) as Hk. cbn zeta in Hk.
    destruct (IH (fw ++ Summary k (counter (HaplotypeResolver_init hs))
                     :: (pair_record (HaplotypeResolver_init hs)
                           <$> pairs (items (counter (HaplotypeResolver_init hs))).*1)))
      as (out & Hout & Hc).
    exists (Summary k (counter (HaplotypeResolver_init hs))
              :: (pair_record (HaplotypeResolver_init hs)
                    <$> pairs (items (counter (HaplotypeResolver_init hs))).*1) ++ out).
    split.
    + erewrite for_each_cons by exact Hk. rewrite Hout, <- app_assoc. reflexivity.
    + change (contigs_of (Summary k ?c :: ?l)) with (k :: contigs_of l).
      rewrite contigs_of_app, contigs_of_pair_records, Hc. done.
Qed.

(** A run in which the header is found, every row is read and every
    extraction returns: [resolve] returns, and it has written one summary
    record for each contig that has a selected marker, no contig twice,
    the contigs in ascending order. *)
Theorem resolve_reports_each_contig_once (items : gmap string Z → list (string * Z))
    (opts : options) (fp : list string) (samfiles : list AlignmentFile)
    (fw : list record) (row : string) (rows : list string) (data : list marker) :
  scan_header None fp = Ok (Some row, rows) →
  load opts (Z.of_nat (length (split row)) - 4)
       (round (missing opts * inject_Z (Z.of_nat (length (split row)) - 4))) rows
  = Ok data →
  (∀ k g samfile, (k, g) ∈ groupby (sort data) → samfile ∈ samfiles →
                  ∃ h, extract samfile k g = Ok h) →
  ∃ out,
    resolve items opts fp samfiles fw = (fw ++ out, Ok tt)
    ∧ Sorted string_lt (contigs_of out)
    ∧ NoDup (contigs_of out)
    ∧ ∀ k, k ∈ contigs_of out ↔ ∃ m, m ∈ data ∧ seqid m = k.
Proof.
  intros Hheader Hload Hextract.
  destruct (contigs_loop items samfiles (groupby (sort data)) fw) as (out & Hout & Hc).
  { apply Forall_forall. intros [k g] Hkg. apply Forall_forall. intros samfile Hs.
    by apply Hextract. }
  exists out.
  assert (Sorted string_lt (contigs_of out)) as Hsorted.
  { rewrite Hc. apply groupby_keys_sorted, sort_sorted. }
  split; [|split; [done|split; [by apply Sorted_string_lt_NoDup|]]].
  - unfold resolve. rewrite (bind_lift_ok _ _ (Some row, rows)) by done.
    cbn beta iota. rewrite (bind_lift_ok _ _ row) by done.
    cbn zeta. rewrite (bind_lift_ok _ _ data) by done. exact Hout.
  - intros k. rewrite Hc, groupby_keys_elem_of.
    split; intros (m & Hm & <-); exists m; (split; [|done]).
    + by rewrite <- (sort_perm data).
    + by rewrite (sort_perm data).
Qed.

Lemma scan_header_comments row (fp : list string) :
  Forall (λ r, getitem r (Some 0) = Ok "#"%char) fp →
  scan_header row fp = Ok (from_option Some row (last fp), []).
Proof.
  intros Hfp. revert row. induction Hfp as [|r fp Hr _ IH]; intros row; [done|].
  cbn [scan_header]. rewrite Hr. cbn [mbind result_bind].
  destruct (decide _) as [Hd|_]; [exfalso; apply Hd; reflexivity|]. rewrite IH.
  destruct fp as [|r' fp]; [done|]. rewrite last_cons_cons.
  destruct (last (r' :: fp)) eqn:Hlast; [done|]. by apply last_None in Hlast.
Qed.

(** Matrix files without a header.  An empty file makes [resolve] raise
    [NameError]; a file of comment lines only is read to its end, its last
    line is taken as the header, and [resolve] returns having written
    nothing. *)
Theorem matrix_without_header (items : gmap string Z → list (string * Z))
    (opts : options) (fp : list string) (samfiles : list AlignmentFile)
    (fw : list record) :
  resolve items opts [] samfiles fw = (fw, Raise NameError)
  ∧ (fp ≠ [] → Forall (λ r, getitem r (Some 0) = Ok "#"%char) fp →
       resolve items opts fp samfiles fw = (fw, Ok tt)).
Proof.
  split; [done|]. intros Hne Hfp. unfold resolve.
  rewrite (bind_lift_ok _ _ (last fp, [])).
  - cbn beta iota. destruct (last fp) as [row|] eqn:Hlast; [done|].
    by apply last_None in Hlast.
  - rewrite scan_header_comments by done.
    destruct (last fp) eqn:Hlast; [done|]. by apply last_None in Hlast.
Qed.

Lemma resolve_reports_each_contig_once_witness :
  ∃ out,
    resolve map_to_list default_options matrix_two_markers [sample_two_reads] []
    = ([] ++ out, Ok tt)
    ∧ NoDup (contigs_of out).
Proof.
  destruct (resolve_reports_each_contig_once map_to_list default_options
              matrix_two_markers [sample_two_reads] []
              "seqid pos ref alt s1 s2 s3 s4"
              ["ctg1 200 A G 3 3 3 1"; "ctg1 100 A G 3 3 0 1"]
              [marker_200; marker_100])
    as (out & Hout & _ & Hnd & _).
  - reflexivity.
  - vm_compute. reflexivity.
  - intros k g samfile Hkg Hs.
    assert (groupby (sort [marker_200; marker_100])
            = [("ctg1", [marker_100; marker_200])]) as Hg by (vm_compute; reflexivity).
    rewrite Hg in Hkg. apply list_elem_of_singleton in Hkg.
    injection Hkg as -> ->. apply list_elem_of_singleton in Hs as ->.
    exists {["AT"]}. vm_compute. reflexivity.
  - exists out. split; [exact Hout|exact Hnd].
Defined.

(** ** Numbers as text *)

Lemma digit_cases (d : Z) :
  0 ≤ d ≤ 9 →
  d = 0 ∨ d = 1 ∨ d = 2 ∨ d = 3 ∨ d = 4 ∨ d = 5 ∨ d = 6 ∨ d = 7 ∨ d = 8 ∨ d = 9.
Proof. lia. Qed.

Lemma digit_digit_char (d : Z) : 0 ≤ d ≤ 9 → digit (digit_char d) = Some d.
Proof.
  intros Hd. destruct (digit_cases d Hd) as [->|[->|[->|[->|[->|[->|[->|[->|[->| ->]]]]]]]]];
    reflexivity.
Qed.

Lemma digit_char_plain (d : Z) :
  0 ≤ d ≤ 9 →
  isspace (digit_char d) = false
  ∧ digit_char d ≠ "-"%char ∧ digit_char d ≠ "+"%char.
Proof.
  intros Hd. destruct (digit_cases d Hd) as [->|[->|[->|[->|[->|[->|[->|[->|[->| ->]]]]]]]]];
    (split; [reflexivity|split; discriminate]).
Qed.

Lemma digits_cons a ch s d :
  digit ch = Some d → digits a (String ch s) = digits (10 * a + d) s.
Proof. intros Hd. cbn [digits]. by rewrite Hd. Qed.

Lemma str_digits_parse (fuel : nat) (n : Z) (acc : string) :
  0 ≤ n < 2 ^ Z.of_nat fuel →
  ∃ k, 0 ≤ k ∧ ∀ a, digits a (str_digits fuel n acc) = digits (a * 10 ^ k + n) acc.
Proof.
  revert n acc. induction fuel as [|fuel IH]; intros n acc Hn.
  - exists 0. split; [done|]. intros a. cbn in *. f_equal. lia.
  - rewrite Nat2Z.inj_succ, Z.pow_succ_r in Hn by lia.
    pose proof (Z.mod_pos_bound n 10 ltac:(lia)) as Hmod.
    pose proof (Z.div_mod n 10 ltac:(lia)) as Hdiv.
    cbn [str_digits]. destruct (Z.ltb_spec n 10) as [Hlt|Hge].
    + exists 1. split; [done|]. intros a.
      rewrite (digits_cons _ _ _ (n mod 10)) by (apply digit_digit_char; lia).
      f_equal. rewrite Z.mod_small by lia. lia.
    + destruct (IH (n / 10) (String (digit_char (n mod 10)) acc)) as (k & Hk & Hparse).
      { split; [apply Z.div_pos; lia|].
        apply Z.div_lt_upper_bound; lia. }
      exists (k + 1). split; [lia|]. intros a. rewrite Hparse.
      rewrite (digits_cons _ _ _ (n mod 10)) by (apply digit_digit_char; lia).
      f_equal. rewrite Z.pow_add_r, Z.pow_1_r by lia. lia.
Qed.

Lemma str_digits_head (fuel : nat) (n : Z) (acc : string) :
  0 ≤ n →
  ∃ d rest, 0 ≤ d ≤ 9 ∧ str_digits (S fuel) n acc = String (digit_char d) rest.
Proof.
  revert n acc. induction fuel as [|fuel IH]; intros n acc Hn.
  - cbn [str_digits]. exists (n mod 10), acc.
    split; [pose proof (Z.mod_pos_bound n 10); lia|]. by destruct (n <? 10).
  - pose proof (Z.mod_pos_bound n 10 ltac:(lia)) as Hmod.
    change (str_digits (S (S fuel)) n acc)
      with (if n <? 10 then String (digit_char (n mod 10)) acc
            else str_digits (S fuel) (n / 10) (String (digit_char (n mod 10)) acc)).
    destruct (n <? 10); [exists (n mod 10), acc; split; [lia|done]|].
    apply IH. apply Z.div_pos; lia.
Qed.

Lemma log2_fuel (n : Z) : 0 ≤ n → 0 ≤ n < 2 ^ Z.of_nat (S (Z.to_nat (Z.log2 n))).
Proof.
  intros Hn. split; [done|].
  rewrite Nat2Z.inj_succ, Z2Nat.id by apply Z.log2_nonneg.
  destruct (decide (n = 0)) as [->|]; [done|].
  apply Z.log2_spec. lia.
Qed.

Lemma unsigned_str_digits (n : Z) :
  0 ≤ n → digits 0 (str_digits (S (Z.to_nat (Z.log2 n))) n EmptyString) = Some n.
Proof.
  intros Hn.
  destruct (str_digits_parse _ n EmptyString (log2_fuel n Hn)) as (k & _ & ->).
  cbn [digits]. reflexivity.
Qed.

(** [int(str(z))] is [z]. *)
Lemma int_str (z : Z) : int (str z) = Ok z.
Proof.
  unfold str. destruct (Z.ltb_spec z 0) as [Hneg|Hpos].
  - destruct (str_digits_head (Z.to_nat (Z.log2 (- z))) (- z) EmptyString)
      as (d & rest & Hd & Heq); [lia|].
    pose proof (unsigned_str_digits (- z) ltac:(lia)) as Hparse.
    unfold int. rewrite Heq in Hparse |- *. rewrite Hparse. cbn. f_equal. lia.
  - destruct (str_digits_head (Z.to_nat (Z.log2 z)) z EmptyString)
      as (d & rest & Hd & Heq); [lia|].
    pose proof (unsigned_str_digits z Hpos) as Hparse.
    destruct (digit_char_plain d Hd) as (_ & Hminus & Hplus).
    unfold int. rewrite Heq in Hparse |- *.
    destruct (digit_char d) as [b0 b1 b2 b3 b4 b5 b6 b7] eqn:Hch.
    destruct b0, b1, b2, b3, b4, b5, b6, b7; try congruence; by rewrite Hparse.
Qed.

(** ** Words, [split] and [join] *)

Lemma string_app_cons ch (a b : string) : String ch a +:+ b = String ch (a +:+ b).
Proof. reflexivity. Qed.

Lemma string_app_nil_l (s : string) : EmptyString +:+ s = s.
Proof. reflexivity. Qed.

Lemma string_app_nil_r (s : string) : s +:+ EmptyString = s.
Proof. induction s as [|ch s IH]; [done|]. rewrite string_app_cons. by f_equal. Qed.

Lemma string_app_assoc (a b c : string) : (a +:+ b) +:+ c = a +:+ (b +:+ c).
Proof. induction a as [|ch a IH]; [done|]. rewrite !string_app_cons. by f_equal. Qed.

Lemma string_app_empty (a b : string) : a +:+ b = EmptyString → a = EmptyString.
Proof. by destruct a. Qed.

Lemma no_space_app (a b : string) : no_space (a +:+ b) = no_space a && no_space b.
Proof.
  induction a as [|ch a IH]; [done|]. rewrite string_app_cons. cbn [no_space].
  rewrite IH. by destruct (isspace ch).
Qed.

Lemma str_digits_no_space fuel n acc :
  no_space acc = true → no_space (str_digits fuel n acc) = true.
Proof.
  revert n acc. induction fuel as [|fuel IH]; intros n acc Hacc; [done|].
  cbn [str_digits].
  assert (no_space (String (digit_char (n mod 10)) acc) = true) as Hacc'.
  { cbn [no_space].
    destruct (digit_char_plain (n mod 10)) as [-> _]; [|done].
    pose proof (Z.mod_pos_bound n 10). lia. }
  destruct (n <? 10); [done|]. by apply IH.
Qed.

(** [str(z)] is a word: not empty and without whitespace. *)
Lemma str_word (z : Z) : str z ≠ EmptyString ∧ no_space (str z) = true.
Proof.
  unfold str. destruct (Z.ltb_spec z 0) as [Hneg|Hpos].
  - split; [done|]. cbn [no_space]. by rewrite str_digits_no_space.
  - split; [|by apply str_digits_no_space].
    destruct (str_digits_head (Z.to_nat (Z.log2 z)) z EmptyString)
      as (d & rest & _ & ->); done.
Qed.

Lemma split_from_word (w s rest : string) :
  no_space s = true → split_from w (s +:+ rest) = split_from (w +:+ s) rest.
Proof.
  revert w. induction s as [|ch s IH]; intros w Hs.
  - by rewrite string_app_nil_r.
  - cbn [no_space] in Hs. apply andb_true_iff in Hs as [Hch Hs].
    apply negb_true_iff in Hch. rewrite string_app_cons. cbn [split_from].
    rewrite Hch, IH by done. f_equal.
    by rewrite string_app_assoc, string_app_cons, string_app_nil_l.
Qed.

(** The words of [split] are not empty and have no whitespace. *)
Lemma split_from_words (w s : string) :
  no_space w = true →
  Forall (λ x, x ≠ EmptyString ∧ no_space x = true) (split_from w s).
Proof.
  revert w. induction s as [|ch s IH]; intros w Hw; cbn [split_from].
  - destruct (decide (w = EmptyString)); repeat constructor; done.
  - destruct (isspace ch) eqn:Hch.
    + destruct (decide (w = EmptyString)); [by apply IH|].
      constructor; [done|]. by apply IH.
    + apply IH. rewrite no_space_app, Hw. cbn [no_space]. by rewrite Hch.
Qed.

(** Joining words by tabs and splitting gives the words back. *)
Lemma split_join_tab (ws : list string) :
  Forall (λ x, x ≠ EmptyString ∧ no_space x = true) ws →
  split (join (String (ascii_of_nat 9) EmptyString) ws) = ws.
Proof.
  unfold split. induction 1 as [|w ws [Hne Hw] Hws IH]; [done|].
  destruct ws as [|w' ws].
  - cbn [join]. rewrite <- (string_app_nil_r w) at 1.
    rewrite split_from_word by done. rewrite string_app_nil_l. cbn [split_from].
    by rewrite decide_False.
  - change (join ?sep (w :: w' :: ws)) with (w +:+ sep +:+ join sep (w' :: ws)).
    rewrite split_from_word by done. rewrite string_app_nil_l, string_app_cons.
    cbn [split_from]. change (isspace (ascii_of_nat 9)) with true. cbn iota.
    rewrite decide_False by done. rewrite string_app_nil_l. by rewrite IH.
Qed.

(** ** Lines of the CAS table *)

Lemma getitem_list_Ok {A} (l : list A) (i : Z) (x : A) :
  getitem_list l i = Ok x →
  - Z.of_nat (length l) ≤ i < Z.of_nat (length l) ∧ x ∈ l.
Proof.
  unfold getitem_list. set (n := Z.of_nat (length l)).
  set (j := if i <? 0 then i + n else i).
  destruct ((0 <=? j) && (j <? n)) eqn:Hb; [|done].
  apply andb_true_iff in Hb as [H0 H1]. apply Z.leb_le in H0. apply Z.ltb_lt in H1.
  destruct (l !! Z.to_nat j) as [y|] eqn:Hy; [|done]. intros [= <-].
  split; [|by eapply list_elem_of_lookup_2].
  subst j. destruct (Z.ltb_spec i 0); lia.
Qed.

Ltac invert_binds H :=
  repeat match type of H with
         | mbind _ ?m = Ok _ =>
             let E := fresh "E" in
             destruct m eqn:E; cbn [mbind result_bind] in H; [cbn beta in H|discriminate H]
         end.

(** What a line that parses was made of. *)
Lemma CasTabLine_init_Ok (line : string) (b : Cas.CasTabLine) :
  Cas.CasTabLine_init line = Ok b →
  ∃ rs fs rev,
    getitem_list (split line) 1 = Ok (Cas.readname b)
    ∧ Cas.int_at (split line) (-10) = Ok (Cas.readlen b)
    ∧ Cas.int_at (split line) (-9) = Ok rs
    ∧ Cas.readstart b = (if decide (rs >= 0) then rs + 1 else rs)
    ∧ Cas.int_at (split line) (-6) = Ok fs
    ∧ Cas.refstart b = (if decide (fs >= 0) then fs + 1 else fs)
    ∧ Cas.int_at (split line) (-4) = Ok rev
    ∧ Cas.is_reversed b = bool_decide (rev = 1)
    ∧ Cas.strand b = (if Cas.is_reversed b then "-" else "+").
Proof.
  unfold Cas.CasTabLine_init. intros H. invert_binds H.
  injection H as <-. cbn. eauto 15.
Qed.

(** A line with fewer than ten columns raises [IndexError]. *)
Theorem short_line_raises_IndexError (line : string) :
  (length (split line) < 10)%nat → Cas.CasTabLine_init line = Raise IndexError.
Proof.
  unfold Cas.CasTabLine_init. intros Hlen.
  destruct (split line) as [|a0 [|a1 [|a2 [|a3 [|a4 [|a5 [|a6 [|a7 [|a8 [|a9 l]]]]]]]]]];
    cbn [length] in Hlen; try reflexivity. lia.
Qed.

(** A line that parses has at least ten columns; its read and reference
    starts are never 0; its read start is -1 exactly when the table's is;
    a non-negative reference start of the table is what [bedline] shows as
    start; the strand is ['-'] for a reversed read and ['+'] otherwise. *)
Theorem parsed_line_coordinates (line : string) (b : Cas.CasTabLine) :
  Cas.CasTabLine_init line = Ok b →
  (10 ≤ length (split line))%nat
  ∧ Cas.readstart b ≠ 0 ∧ Cas.refstart b ≠ 0
  ∧ (∀ rs, Cas.int_at (split line) (-9) = Ok rs → (Cas.readstart b = -1 ↔ rs = -1))
  ∧ (∀ fs, Cas.int_at (split line) (-6) = Ok fs → 0 ≤ fs → Cas.refstart b - 1 = fs)
  ∧ (Cas.strand b = "-" ∧ Cas.is_reversed b = true
     ∨ Cas.strand b = "+" ∧ Cas.is_reversed b = false).
Proof.
  intros Hb.
  destruct (CasTabLine_init_Ok line b Hb)
    as (rs & fs & rev & _ & Hlen & Hrs & Hrs' & Hfs & Hfs' & _ & _ & Hstrand).
  split; [|split; [|split; [|split; [|split]]]].
  - unfold Cas.int_at in Hlen.
    destruct (getitem_list (split line) (-10)) as [x|] eqn:Hx; [|done].
    apply getitem_list_Ok in Hx. lia.
  - rewrite Hrs'. destruct (decide (rs >= 0)); lia.
  - rewrite Hfs'. destruct (decide (fs >= 0)); lia.
  - intros rs' Hrs''. rewrite Hrs in Hrs''. injection Hrs'' as <-.
    rewrite Hrs'. destruct (decide (rs >= 0)); lia.
  - intros fs' Hfs'' Hpos. rewrite Hfs in Hfs''. injection Hfs'' as <-.
    rewrite Hfs'. destruct (decide (fs >= 0)); lia.
  - rewrite Hstrand. destruct (Cas.is_reversed b); auto.
Qed.

(** The line [bedline] makes of a parsed line splits back into its six
    fields, and the numbers among them read back as the numbers of the
    line. *)
Theorem bedline_round_trip (line : string) (b : Cas.CasTabLine) :
  Cas.CasTabLine_init line = Ok b →
  ∃ f0 f1 f2 f4,
    split (Cas.bedline b) = [f0; f1; f2; Cas.readname b; f4; Cas.strand b]
    ∧ int f0 = Ok (Cas.refnum b)
    ∧ int f1 = Ok (Cas.refstart b - 1)
    ∧ int f2 = Ok (Cas.refstop b)
    ∧ int f4 = Ok (Cas.score b).
Proof.
  intros Hb.
  destruct (CasTabLine_init_Ok line b Hb)
    as (rs & fs & rev & Hname & _ & _ & _ & _ & _ & _ & _ & Hstrand).
  exists (str (Cas.refnum b)), (str (Cas.refstart b - 1)), (str (Cas.refstop b)),
         (str (Cas.score b)).
  rewrite !int_str. split; [|done].
  unfold Cas.bedline. apply split_join_tab. unfold Cas.bedfields.
  repeat constructor; try apply str_word.
  - apply getitem_list_Ok in Hname as [_ Hin].
    pose proof (split_from_words EmptyString line eq_refl) as Hw.
    rewrite Forall_forall in Hw. by apply Hw.
  - apply getitem_list_Ok in Hname as [_ Hin].
    pose proof (split_from_words EmptyString line eq_refl) as Hw.
    rewrite Forall_forall in Hw. by apply Hw.
  - rewrite Hstrand. by destruct (Cas.is_reversed b).
  - rewrite Hstrand. by destruct (Cas.is_reversed b).
Qed.

Lemma short_line_raises_IndexError_witness :
  Cas.CasTabLine_init "1 2 3 4 5 6 7 8 9" = Raise IndexError.
Proof. apply short_line_raises_IndexError. vm_compute. lia. Defined.

Lemma parsed_line_coordinates_witness :
  ∃ b, Cas.CasTabLine_init "12 read1 100 0 100 3 500 600 1 1 0 95" = Ok b
       ∧ Cas.refstart b - 1 = 500.
Proof.
  eexists. split; [reflexivity|].
  refine (proj1 (proj2 (proj2 (proj2 (proj2
            (parsed_line_coordinates "12 read1 100 0 100 3 500 600 1 1 0 95" _ eq_refl)))))
            500 _ _).
  - reflexivity.
  - lia.
Defined.

Lemma bedline_round_trip_witness :
  ∃ b f0 f1 f2 f4,
    Cas.CasTabLine_init "12 read1 100 0 100 3 500 600 1 1 0 95" = Ok b
    ∧ split (Cas.bedline b) = [f0; f1; f2; "read1"; f4; "-"]
    ∧ int f1 = Ok 500.
Proof.
  eexists.
  destruct (bedline_round_trip "12 read1 100 0 100 3 500 600 1 1 0 95" _ eq_refl)
    as (f0 & f1 & f2 & f4 & Hsplit & _ & Hf1 & _).
  exists f0, f1, f2, f4. split; [reflexivity|]. split; [exact Hsplit|exact Hf1].
Defined.

(** ** [bed], [pairs] and [split] of [formats/cas.py] *)

(** Whether the loop of [bed] ends normally or with an exception, what
    was written before stays and lines are only added; every added line
    is the bed line of a row that parses with a read start other than -1,
    under a name taken from [refnames]; and when the loop ends normally
    there is one line for each such row. *)
Theorem bed_writes_mapped_rows (refnames fp fw fw' : list string) (r : result unit) :
  Cas.bed refnames fp fw = (fw', r) →
  ∃ out,
    fw' = fw ++ out
    ∧ Forall (λ ln, ∃ row b name,
                row ∈ fp ∧ Cas.CasTabLine_init row = Ok b ∧ Cas.readstart b ≠ -1
                ∧ name ∈ refnames
                ∧ ln = join (String (ascii_of_nat 9) EmptyString) (Cas.bedfields name b))
             out
    ∧ (r = Ok tt → length out = length (filter (λ row, Cas.is_mapped row = true) fp)).
Proof.
  revert fw. induction fp as [|row fp IH]; intros fw; cbn [Cas.bed].
  - intros [= <- <-]. exists []. rewrite app_nil_r. by repeat split.
  - rewrite filter_cons.
    assert (Cas.is_mapped row = true
            ↔ ∃ b, Cas.CasTabLine_init row = Ok b ∧ Cas.readstart b ≠ -1) as Hmapped.
    { unfold Cas.is_mapped. destruct (Cas.CasTabLine_init row) as [b|e].
      - rewrite bool_decide_eq_true. split; [eauto|]. by intros (? & [= <-] & ?).
      - split; [done|]. by intros (? & ? & _). }
    destruct (Cas.CasTabLine_init row) as [b|e] eqn:Hb.
    + destruct (decide (Cas.readstart b = -1)) as [Hs|Hs].
      * rewrite decide_False
          by (rewrite Hmapped; intros (? & [= <-] & ?); done).
        intros H. destruct (IH _ H) as (out & -> & Hall & Hlen).
        exists out. split; [done|]. split; [|done].
        eapply Forall_impl; [exact Hall|].
        intros ln (row' & b' & name & ? & ?). exists row', b', name.
        split; [by right|done].
      * rewrite decide_True by (rewrite Hmapped; eauto).
        destruct (getitem_list refnames (Cas.refnum b)) as [name|e] eqn:Hname.
        -- intros H. destruct (IH _ H) as (out & -> & Hall & Hlen).
           eexists (_ :: out). split; [by rewrite <- app_assoc|]. split.
           ++ constructor.
              ** exists row, b, name. apply getitem_list_Ok in Hname as [_ ?].
                 repeat split; try done. left.
              ** eapply Forall_impl; [exact Hall|].
                 intros ln (row' & b' & name' & ? & ?). exists row', b', name'.
                 split; [by right|done].
           ++ intros Hr. cbn [length]. by rewrite Hlen.
        -- intros [= <- <-]. exists []. rewrite app_nil_r. by repeat split.
    + intros [= <- <-]. exists []. rewrite app_nil_r. by repeat split.
Qed.

Lemma pairs_data_skipped (nrows i : Z) (fp : list string) :
  nrows ≤ i → Cas.pairs_data nrows i fp = Ok [].
Proof.
  revert i. induction fp as [|row fp IH]; intros i Hi; [done|].
  cbn [Cas.pairs_data]. rewrite decide_False by lia. apply IH. lia.
Qed.

Lemma pairs_data_app (nrows i : Z) (fp extra : list string) :
  nrows ≤ i + Z.of_nat (length fp) →
  Cas.pairs_data nrows i (fp ++ extra) = Cas.pairs_data nrows i fp.
Proof.
  revert i. induction fp as [|row fp IH]; intros i Hi.
  - cbn [app]. rewrite pairs_data_skipped by (cbn in Hi; lia). done.
  - cbn [app Cas.pairs_data]. cbn [length] in Hi.
    rewrite IH by lia. done.
Qed.

Lemma pairs_data_length (nrows i : Z) (fp : list string) data :
  Cas.pairs_data nrows i fp = Ok data →
  length data = Z.to_nat (Z.min (nrows - i) (Z.of_nat (length fp))).
Proof.
  revert i data. induction fp as [|row fp IH]; intros i data; cbn [Cas.pairs_data].
  - intros [= <-]. cbn. lia.
  - destruct (decide (i < nrows)).
    + destruct (Cas.CasTabLine_init row); cbn [mbind result_bind]; [|done].
      destruct (Cas.pairs_data nrows (i + 1) fp) as [data'|] eqn:Hd;
        cbn [mbind result_bind]; [|done].
      intros [= <-]. cbn [length]. rewrite (IH _ _ Hd). lia.
    + intros Hd. rewrite (IH _ _ Hd). cbn [length]. lia.
Qed.

(** [pairs] parses the first [nrows] lines of the table only: lines after
    them do not change the outcome, even when they would not parse, and a
    successful read gives min(nrows, number of lines) entries (none for a
    negative [nrows]). *)
Theorem pairs_reads_first_rows (nrows : Z) (fp extra : list string) :
  nrows ≤ Z.of_nat (length fp) →
  Cas.pairs_data nrows 0 (fp ++ extra) = Cas.pairs_data nrows 0 fp
  ∧ ∀ data, Cas.pairs_data nrows 0 fp = Ok data → length data = Z.to_nat nrows.
Proof.
  intros Hn. split; [apply pairs_data_app; lia|].
  intros data Hd. rewrite (pairs_data_length _ _ _ _ Hd). lia.
Qed.

Lemma length_range (a b : Z) : length (range a b) = Z.to_nat (b - a).
Proof. unfold range. by rewrite length_fmap, length_seq. Qed.

Lemma lookup_range (a b : Z) (k : nat) :
  (k < Z.to_nat (b - a))%nat → range a b !! k = Some (a + Z.of_nat k).
Proof.
  intros Hk. unfold range. rewrite list_lookup_fmap, lookup_seq_lt by done. done.
Qed.

(** [split] hands [sh] one [sub_assembly] command for each index from
    [start] to [end], both included and in order, and none when [end] is
    below [start]. *)
Theorem split_one_command_per_index (casfile start end_ : string) (s e : Z) :
  int start = Ok s →
  int end_ = Ok e →
  ∃ cmds,
    Cas.split casfile start end_ = Ok cmds
    ∧ length cmds = Z.to_nat (e - s + 1)
    ∧ (e < s → cmds = [])
    ∧ ∀ k : nat, (k < length cmds)%nat →
                 cmds !! k = Some (Cas.split_cmd casfile (s + Z.of_nat k)).
Proof.
  intros Hs He. unfold Cas.split. rewrite Hs, He. cbn [mbind result_bind].
  eexists. split; [done|].
  assert (length (Cas.split_cmd casfile <$> range s (e + 1)) = Z.to_nat (e - s + 1)) as Hlen.
  { rewrite length_fmap, length_range. f_equal. lia. }
  split; [done|]. split.
  - intros Hlt. apply nil_length_inv. rewrite Hlen. lia.
  - intros k Hk. rewrite Hlen in Hk.
    rewrite list_lookup_fmap, lookup_range by lia. done.
Qed.

Lemma bed_writes_mapped_rows_witness :
  ∃ out,
    [ "chrD" +:+ String (ascii_of_nat 9) "500"
      +:+ String (ascii_of_nat 9) "600" +:+ String (ascii_of_nat 9) "read1"
      +:+ String (ascii_of_nat 9) "95" +:+ String (ascii_of_nat 9) "-" ] = [] ++ out
    ∧ length out = 1%nat.
Proof.
  destruct (bed_writes_mapped_rows ["chrA"; "chrB"; "chrC"; "chrD"]
              [ "12 read1 100 0 100 3 500 600 1 1 0 95";
                "- read2 100 -1 -1 -1 -1 -1 0 0 0 0" ] [] _ (Ok tt) eq_refl)
    as (out & Hout & _ & Hlen).
  exists out. split; [exact Hout|]. exact (Hlen eq_refl).
Defined.

Lemma pairs_reads_first_rows_witness :
  Cas.pairs_data 1 0 (["12 read1 100 0 100 3 500 600 1 1 0 95"] ++ ["garbage"])
  = Cas.pairs_data 1 0 ["12 read1 100 0 100 3 500 600 1 1 0 95"].
Proof.
  refine (proj1 (pairs_reads_first_rows 1 ["12 read1 100 0 100 3 500 600 1 1 0 95"]
                   ["garbage"] _)).
  cbn. lia.
Defined.

Lemma split_one_command_per_index_witness :
  ∃ cmds, Cas.split "x.cas" "3" "5" = Ok cmds ∧ length cmds = 3%nat.
Proof.
  destruct (split_one_command_per_index "x.cas" "3" "5" 3 5 eq_refl eq_refl)
    as (cmds & Hc & Hlen & _).
  exists cmds. split; [exact Hc|exact Hlen].
Defined.

(** ** The order of the samples *)

Lemma samples_with_perm a (hs hs' : list (gset string)) :
  hs ≡ₚ hs' → samples_with a hs = samples_with a hs'.
Proof. intros H. unfold samples_with. by rewrite H. Qed.

Lemma samples_with_both_perm a b (hs hs' : list (gset string)) :
  hs ≡ₚ hs' → samples_with_both a b hs = samples_with_both a b hs'.
Proof. intros H. unfold samples_with_both. by rewrite H. Qed.

(** The order in which the samples are given does not matter: the number
    of samples, the counter and every co-occurrence count are the same for
    any reordering of the samples' sets. *)
Theorem sample_order_irrelevant (hs hs' : list (gset string)) :
  hs ≡ₚ hs' →
  nind (HaplotypeResolver_init hs) = nind (HaplotypeResolver_init hs')
  ∧ counter (HaplotypeResolver_init hs) = counter (HaplotypeResolver_init hs')
  ∧ ∀ a b, cooccurrence (HaplotypeResolver_init hs) a b
           = cooccurrence (HaplotypeResolver_init hs') a b.
Proof.
  intros H. split; [|split].
  - cbn. by rewrite H.
  - apply map_eq. intros a. rewrite !counter_lookup.
    by rewrite (samples_with_perm a hs hs' H).
  - intros a b. rewrite !cooccurrence_samples. by apply samples_with_both_perm.
Qed.

Lemma sample_order_irrelevant_witness :
  counter (HaplotypeResolver_init [{["AT"; "GC"]}; {["AT"]}])
  = counter (HaplotypeResolver_init [{["AT"]}; {["AT"; "GC"]}]).
Proof.
  refine (proj1 (proj2 (sample_order_irrelevant [{["AT"; "GC"]}; {["AT"]}]
                          [{["AT"]}; {["AT"; "GC"]}] _))).
  apply Permutation_swap.
Defined.

(** ** [count] *)

Lemma count_sizes_loop (descs : list string) (acc sizes : list Z) :
  count_sizes descs acc = inl sizes →
  ∃ more, sizes = acc ++ more ∧ Forall2 (λ desc n, count_size desc = inl n) descs more.
Proof.
  revert acc. induction descs as [|desc descs IH]; intros acc; cbn [count_sizes].
  - intros [= <-]. exists []. rewrite app_nil_r. by split.
  - destruct (count_size desc) as [size|] eqn:Hsize; [|done].
    intros H. destruct (IH _ H) as (more & -> & Hmore).
    exists (size :: more). split; [by rewrite <- app_assoc|]. by constructor.
Qed.

(** When [count] gets through the descriptions, [sizes] has one entry per
    description, in order: 1 for a description that starts with
    [singleton], whatever follows; otherwise the description has exactly
    four words, the second is [with] and the entry is the number read from
    the third. *)
Theorem count_one_size_per_description (descs : list string) (sizes : list Z) :
  count_sizes descs [] = inl sizes →
  Forall2 (λ desc n,
             (startswith desc "singleton" = true ∧ n = 1)
             ∨ (startswith desc "singleton" = false
                ∧ ∃ name size seqs,
                    split desc = [name; "with"; size; seqs] ∧ int size = Ok n))
          descs sizes.
Proof.
  intros H. apply count_sizes_loop in H as (more & -> & Hmore). cbn [app].
  eapply Forall2_impl; [exact Hmore|].
  intros desc n. unfold count_size.
  destruct (startswith desc "singleton"); [intros [= <-]; by left|].
  destruct (split desc) as [|name [|w [|size [|seqs [|? ?]]]]]; try done.
  destruct (decide (w = "with")) as [->|]; [|done].
  destruct (int size) as [m|] eqn:Hint; [|done].
  intros [= <-]. right. split; [done|]. eauto.
Qed.

Lemma count_one_size_per_description_witness :
  Forall2 (λ desc n,
             (startswith desc "singleton" = true ∧ n = 1)
             ∨ (startswith desc "singleton" = false
                ∧ ∃ name size seqs,
                    split desc = [name; "with"; size; seqs] ∧ int size = Ok n))
          ["singleton_17 with nothing else to say";
           "consensus_for_cluster_0 with 63 sequences"]
          [1; 63].
Proof.
  apply count_one_size_per_description. reflexivity.
Defined.

(** ** [fastpairs] *)

(** [fastpairs] takes the lines of the table two by two.  When every line
    parses, it returns normally on an even number of lines and raises
    [IndexError] on an odd number, the last line being paired with the
    empty string that [readline] gives at the end of the file. *)
Theorem fastpairs_needs_even_table (orientation : Type)
    (range_distance : Z * Z * Z * string → Z * Z * Z * string → Z * orientation)
    (orientationlabels : orientation → string) (fp out : list string) :
  Forall (λ row, ∃ b, Cas.CasTabLine_init row = Ok b) fp →
  (Cas.fastpairs orientation range_distance orientationlabels fp out).2
  = if Nat.even (length fp) then Ok tt else Raise IndexError.
Proof.
  assert (∀ row, (∃ b, Cas.CasTabLine_init row = Ok b) → row ≠ EmptyString) as Hne.
  { intros row [b Hb] ->. done. }
  cut (∀ fp,
         (∀ out, Forall (λ row, ∃ b, Cas.CasTabLine_init row = Ok b) fp →
            (Cas.fastpairs orientation range_distance orientationlabels fp out).2
            = if Nat.even (length fp) then Ok tt else Raise IndexError)
         ∧ (∀ row out, Forall (λ row, ∃ b, Cas.CasTabLine_init row = Ok b) (row :: fp) →
            (Cas.fastpairs orientation range_distance orientationlabels (row :: fp) out).2
            = if Nat.even (length (row :: fp)) then Ok tt else Raise IndexError)).
  { intros H. apply H. }
  clear fp out. induction fp as [|brow fp [IH0 IH1]].
  - split; [done|]. intros row out Hrow. apply Forall_cons in Hrow as [Hrow _].
    cbn [Cas.fastpairs]. rewrite decide_False by by apply Hne.
    destruct Hrow as [a Ha]. unfold Cas.fastpairs_parse. rewrite Ha. done.
  - split; [apply IH1|].
    intros arow out Hrows.
    apply Forall_cons in Hrows as [Harow Hrows].
    apply Forall_cons in Hrows as [Hbrow Hrows].
    cbn [Cas.fastpairs]. rewrite decide_False by by apply Hne.
    destruct Harow as [a Ha], Hbrow as [b Hb].
    unfold Cas.fastpairs_parse. rewrite Ha, Hb. cbn [mbind result_bind].
    rewrite IH0 by done. done.
Qed.

Lemma fastpairs_needs_even_table_witness :
  (Cas.fastpairs unit (λ _ _, (7, tt)) (λ _, "+-")
     ["12 read1 100 0 100 3 500 600 1 1 0 95";
      "13 read2 100 0 100 3 700 800 0 1 0 90";
      "14 read3 100 0 100 3 900 950 0 1 0 90"] []).2
  = Raise IndexError.
Proof.
  apply (fastpairs_needs_even_table unit (λ _ _, (7, tt)) (λ _, "+-")).
  repeat constructor; eexists; reflexivity.
Defined.
